(** * A shallow embedding of ProbLog's stack-based grounding engine
    (problog/engine_stack.py): the evaluation records, the trampoline
    driver, the definition cache and the cycle protocol. *)

From Stdlib Require Import ZArith.
From stdpp Require Import base list gmap sets strings pretty.

Open Scope Z_scope.
Set Warnings "-register-all".

(* ------------------------------------------------------------------ *)
(** ** Terms, contexts and ground nodes *)

(** Prolog terms as the engine sees them: an unbound variable (the engine
    uses [None] or a variable index), an atom, a number or a compound
    term. *)
Inductive term :=
| Var (i : nat)
| Cst (c : string)
| Num (z : Z)
| App (f : string) (args : list term).

Fixpoint is_ground_term (t : term) : bool :=
  match t with
  | Var _ => false
  | Cst _ | Num _ => true
  | App _ args => forallb is_ground_term args
  end.

(** [engine.is_ground( *args)]: every argument is ground. *)
Definition is_ground (args : list term) : bool := forallb is_ground_term args.

(** Structural equality of terms (Python's [Term.__eq__]). *)
Fixpoint term_eqb (a b : term) : bool :=
  match a, b with
  | Var i, Var j => Nat.eqb i j
  | Cst c, Cst d => String.eqb c d
  | Num z, Num w => Z.eqb z w
  | App f l, App g m =>
      String.eqb f g &&
      (fix go (l m : list term) : bool :=
         match l, m with
         | [], [] => true
         | x :: l', y :: m' => term_eqb x y && go l' m'
         | _, _ => false
         end) l m
  | _, _ => false
  end.

Fixpoint terms_eqb (l m : list term) : bool :=
  match l, m with
  | [], [] => true
  | x :: l', y :: m' => term_eqb x y && terms_eqb l' m'
  | _, _ => false
  end.

(** A context: the tuple of actual arguments of a call. *)
Definition context := list term.

(** Ground node ids of the target formula; [None] is [NODE_FALSE] and
    [Some 0] is [NODE_TRUE]. *)
Definition gnode := option Z.
Definition NODE_TRUE : gnode := Some 0.
Definition NODE_FALSE : gnode := None.

(** The opaque identifier threaded through call/result/complete; the
    engine uses [None] or a ground node id. *)
Definition ident := gnode.

(* ------------------------------------------------------------------ *)
(** ** Errors and the error monad *)

(** [database.lineno(location)]: (filename, line, column). *)
Definition lineinfo := option (string * Z * Z)%type.

Inductive exc :=
| NegativeCycle (loc : lineinfo)
| IndirectCallCycleError (loc : lineinfo)
| UnknownClause (sig : string) (loc : lineinfo)
| UnknownClause_internal            (** [_UnknownClause] *)
| InvalidEngineState (msg : string)
| AssertionError
| IndexError
| KeyError
| TypeError
| Diverge.    (** not a Python error: the model's fuel ran out *)

Inductive res (A : Type) :=
| Ok (a : A)
| Err (e : exc).
Arguments Ok {A} a.
Arguments Err {A} e.

Notation "x <-? m ;; k" :=
  (match m with Ok x => k | Err e => Err e end)
  (at level 100, m at next level, right associativity).

(* ------------------------------------------------------------------ *)
(** ** Transformations (class [Transformations]) *)

(** A transform step maps a result tuple to a new tuple or to [None]. *)
Definition tfun := context -> option context.

Record Transformations := { functions : list tfun }.

Definition Transformations_new : Transformations := {| functions := [] |}.

(** [addFunction]: [self.functions.append(function)]. *)
Definition addFunction (t : Transformations) (f : tfun) : Transformations :=
  {| functions := functions t ++ [f] |}.

(** The loop body of [__call__]: [for f in fs: if result is None: return
    None; result = f(result)]; then [return result]. *)
Fixpoint run_functions (fs : list tfun) (result : option context)
  : option context :=
  match fs with
  | [] => result
  | f :: fs' =>
      match result with
      | None => None
      | Some r => run_functions fs' (f r)
      end
  end.

(** [Transformations.__call__(result)]: functions in reverse order. *)
Definition Transformations_call (t : Transformations) (result : context)
  : option context :=
  run_functions (rev (functions t)) (Some result).

(* ------------------------------------------------------------------ *)
(** ** Messages (the tuples built by [call], [newResult], [complete]) *)

(** The keyword arguments a [call] message carries. *)
Record kwargs := {
  kw_parent : option nat;
  kw_identifier : ident;
  kw_context : context;
  kw_transform : option Transformations;
  kw_call_origin : option (string * Z);   (** (functor/arity, location) *)
}.

(** A destination [None] is the outer caller of [execute]. A result
    tuple is [None] only where [eval_call]'s short-circuits forward the
    output of a transform that dropped the context. *)
Inductive action :=
| ACall (node_id : Z) (kw : kwargs)                               (** 'e' *)
| AResult (dst : option nat) (result : option context) (ground_node : gnode)
    (source : ident) (is_last : bool)                             (** 'r' *)
| AComplete (dst : option nat) (source : ident).                   (** 'c' *)

(* ------------------------------------------------------------------ *)
(** ** Evaluation records (class [EvalNode] and subclasses) *)

(** The fields of [EvalNode] the modelled code reads. [en_location] is
    [node.location] of the compiled node the record evaluates. *)
Record evalnode := {
  en_node_id : Z;
  en_location : Z;
  en_context : context;
  en_parent : option nat;
  en_identifier : ident;
  en_pointer : nat;
  en_transform : option Transformations;
  en_on_cycle : bool;
}.

Definition set_on_cycle (b : evalnode) : evalnode :=
  {| en_node_id := en_node_id b; en_location := en_location b;
     en_context := en_context b; en_parent := en_parent b;
     en_identifier := en_identifier b; en_pointer := en_pointer b;
     en_transform := en_transform b; en_on_cycle := true |}.

(** [EvalNode.notifyComplete(parent=None)]. *)
Definition notifyComplete (b : evalnode) (parent : option nat) : list action :=
  let p := match parent with None => en_parent b | Some q => Some q end in
  [AComplete p (en_identifier b)].

(** [EvalNode.notifyResult(arguments, node, is_last, parent=None)]. *)
Definition notifyResult (b : evalnode) (arguments : context) (node : gnode)
    (is_last : bool) (parent : option nat) : list action :=
  let p := match parent with None => en_parent b | Some q => Some q end in
  let arguments' :=
    match en_transform b with
    | Some t => Transformations_call t arguments
    | None => Some arguments
    end in
  match arguments' with
  | None => if is_last then notifyComplete b None else []
  | Some a => [AResult p (Some a) node (en_identifier b) is_last]
  end.

(* ------------------------------------------------------------------ *)
(** ** Result sets (class [ResultSet]) *)

(** An entry's second field: a list of contributing ground nodes before
    [collapse], a single ground node after it. *)
Inductive rsval :=
| Nodes (l : list gnode)
| One (n : gnode).

(** [results] in insertion order; [index] is the position of the first
    entry with a given result tuple, so it is computed by search. *)
Record ResultSet := {
  rs_results : list (context * rsval);
  rs_collapsed : bool;
}.

Definition ResultSet_new : ResultSet :=
  {| rs_results := []; rs_collapsed := false |}.

Fixpoint rs_find (r : context) (l : list (context * rsval)) : option rsval :=
  match l with
  | [] => None
  | (r', v) :: l' => if terms_eqb r r' then Some v else rs_find r l'
  end.

(** [ResultSet.__getitem__] (a [KeyError] becomes [None]: [get]). *)
Definition rs_get (rs : ResultSet) (r : context) : option rsval :=
  rs_find r (rs_results rs).

(** [results[index][1].append(node)] on the entry at [index]. *)
Fixpoint rs_append_at (r : context) (node : gnode)
    (l : list (context * rsval)) : res (list (context * rsval)) :=
  match l with
  | [] => Err KeyError
  | (r', v) :: l' =>
      if terms_eqb r r' then
        match v with
        | Nodes ns => Ok ((r', Nodes (ns ++ [node])) :: l')
        | One _ => Err TypeError
        end
      else (l'' <-? rs_append_at r node l' ;; Ok ((r', v) :: l''))
  end.

(** [ResultSet.__setitem__(result, node)]. *)
Definition rs_set (rs : ResultSet) (r : context) (node : gnode) : res ResultSet :=
  match rs_get rs r with
  | None =>
      let v := if rs_collapsed rs then One node else Nodes [node] in
      Ok {| rs_results := rs_results rs ++ [(r, v)];
            rs_collapsed := rs_collapsed rs |}
  | Some _ =>
      if rs_collapsed rs then Err AssertionError
      else (l <-? rs_append_at r node (rs_results rs) ;;
            Ok {| rs_results := l; rs_collapsed := false |})
  end.

(** [ResultSet.keys()]. *)
Definition rs_keys (rs : ResultSet) : list context := map fst (rs_results rs).

(* ------------------------------------------------------------------ *)
(** ** Nested dictionaries (class [NestedDict]) *)

(** A key [(functor, args)]. [NestedDict] indexes its base dictionary by
    [(functor, len(args))] and then by each argument in turn; as the
    arity is determined by [args], this is a map on [(functor, args)]. *)
Definition key := (string * list term)%type.

Definition key_eqb (k1 k2 : key) : bool :=
  String.eqb k1.1 k2.1 && terms_eqb k1.2 k2.2.

Definition NestedDict (V : Type) := key -> option V.

Definition NestedDict_new {V} : NestedDict V := fun _ => None.

(** [__setitem__]. *)
Definition nd_set {V} (d : NestedDict V) (k : key) (v : V) : NestedDict V :=
  fun k' => if key_eqb k k' then Some v else d k'.

(** [__delitem__]: a missing key raises [KeyError]. *)
Definition nd_del {V} (d : NestedDict V) (k : key) : res (NestedDict V) :=
  match d k with
  | None => Err KeyError
  | Some _ => Ok (fun k' => if key_eqb k k' then None else d k')
  end.

(* ------------------------------------------------------------------ *)
(** ** The definition cache (class [DefineCache]) *)

Record DefineCache := {
  dc_non_ground : NestedDict ResultSet;
  dc_ground : NestedDict rsval;
  dc_active : NestedDict nat;    (** the active [EvalDefine], by pointer *)
}.

Definition DefineCache_new : DefineCache :=
  {| dc_non_ground := NestedDict_new; dc_ground := NestedDict_new;
     dc_active := NestedDict_new |}.

(** [is_dont_cache]: [goal[0][:9] == '_nocache_']. *)
Definition is_dont_cache (goal : key) : bool :=
  String.eqb (String.substring 0 9 goal.1) "_nocache_".

Definition activate (c : DefineCache) (goal : key) (p : nat) : DefineCache :=
  {| dc_non_ground := dc_non_ground c; dc_ground := dc_ground c;
     dc_active := nd_set (dc_active c) goal p |}.

Definition deactivate (c : DefineCache) (goal : key) : res DefineCache :=
  a <-? nd_del (dc_active c) goal ;;
  Ok {| dc_non_ground := dc_non_ground c; dc_ground := dc_ground c;
        dc_active := a |}.

Definition getEvalNode (c : DefineCache) (goal : key) : option nat :=
  dc_active c goal.

(** The loop [for res_key in res_keys: self.__ground[(functor, res_key)]
    = results[res_key]]. *)
Fixpoint store_ground (g : NestedDict rsval) (functor : string)
    (rs : ResultSet) (keys : list context) : NestedDict rsval :=
  match keys with
  | [] => g
  | k :: ks =>
      let g' := match rs_get rs k with
                | Some v => nd_set g (functor, k) v
                | None => g
                end in
      store_ground g' functor rs ks
  end.

(** [DefineCache.__setitem__(goal, results)]. *)
Definition dc_setitem (c : DefineCache) (goal : key) (results : ResultSet)
  : DefineCache :=
  if is_dont_cache goal then c
  else
    let '(functor, args) := goal in
    if is_ground args then
      match rs_keys results with
      | res_key :: _ =>
          let g := match rs_get results res_key with
                   | Some v => nd_set (dc_ground c) (functor, res_key) v
                   | None => dc_ground c
                   end in
          {| dc_non_ground := dc_non_ground c; dc_ground := g;
             dc_active := dc_active c |}
      | [] =>
          {| dc_non_ground := dc_non_ground c;
             dc_ground := nd_set (dc_ground c) (functor, args) (One NODE_FALSE);
             dc_active := dc_active c |}
      end
    else
      {| dc_non_ground := nd_set (dc_non_ground c) goal results;
         dc_ground := store_ground (dc_ground c) functor results (rs_keys results);
         dc_active := dc_active c |}.

(** [DefineCache.__getitem__(goal)]. *)
Definition dc_getitem (c : DefineCache) (goal : key)
  : res (list (context * rsval)) :=
  let '(functor, args) := goal in
  if is_ground args then
    match dc_ground c goal with
    | Some v => Ok [(args, v)]
    | None => Err KeyError
    end
  else
    match dc_non_ground c goal with
    | Some rs => Ok (rs_results rs)
    | None => Err KeyError
    end.

(** [DefineCache.get(key)]: a [KeyError] gives the default [None]. *)
Definition dc_get (c : DefineCache) (goal : key)
  : option (list (context * rsval)) :=
  match dc_getitem c goal with
  | Ok l => Some l
  | Err _ => None
  end.

(** [DefineCache.__contains__(goal)]. *)
Definition dc_contains (c : DefineCache) (goal : key) : bool :=
  let '(functor, args) := goal in
  if is_ground args then bool_decide (is_Some (dc_ground c goal))
  else bool_decide (is_Some (dc_non_ground c goal)).

(* ------------------------------------------------------------------ *)
(** ** The ground target (an external collaborator, [LogicFormula]) *)

(** Only the operations the engine calls; the target's own state is
    abstract. *)
Class Target := {
  tstate : Type;
  (** [addOr(components, readonly)] *)
  t_addOr : tstate -> list gnode -> bool -> tstate * gnode;
  (** [addNot(node)] *)
  t_addNot : tstate -> gnode -> tstate * gnode;
  (** [addDisjunct(or_node, new_child)] *)
  t_addDisjunct : tstate -> gnode -> gnode -> tstate;
  (** [addName(str(Term(functor, *res)), node, LABEL_NAMED)] *)
  t_addName : tstate -> term -> rsval -> tstate;
}.

(* ------------------------------------------------------------------ *)
(** ** Record variants *)

(** The fields [EvalDefine] adds to [EvalNode]. *)
Record define_fields := {
  d_functor : string;                 (** [node.functor] *)
  d_results : ResultSet;
  d_cycle_children : list nat;
  d_cycle_close : gset nat;
  d_is_cycle_root : bool;
  d_is_cycle_child : bool;
  d_is_cycle_parent : bool;
  d_to_complete : Z;
  d_is_ground : bool;
}.

Inductive record :=
| EvalOr (b : evalnode) (results : ResultSet) (to_complete : Z)
| EvalNot (b : evalnode) (nodes : list gnode)    (** the set [nodes] *)
| EvalDefine (b : evalnode) (d : define_fields)
| EvalAnd (b : evalnode) (to_complete : Z)
| EvalBuiltIn (b : evalnode).

Definition rec_base (r : record) : evalnode :=
  match r with
  | EvalOr b _ _ | EvalNot b _ | EvalDefine b _ | EvalAnd b _
  | EvalBuiltIn b => b
  end.

Definition rec_parent (r : record) : option nat := en_parent (rec_base r).
Definition rec_on_cycle (r : record) : bool := en_on_cycle (rec_base r).

Definition is_EvalNot (r : record) : bool :=
  match r with EvalNot _ _ => true | _ => false end.

(** The compiled database nodes (named tuples of [ClauseDB]). The
    payloads of the node kinds the modelled code does not evaluate are
    kept to what identifies them. *)
Inductive dbnode :=
| NFact (args : list term)
| NConj (children : list Z)
| NDisj (children : list Z) (location : Z)
| NNeg (child : Z) (location : Z)
| NDefine (functor : string) (arity : nat)
| NCall (functor : string) (args : list term) (defnode : Z) (location : Z)
| NClause (args : list term) (child : Z) (varcount : nat)
| NChoice (group : Z) (choice : Z).

Section Engine.
Context `{Target}.

(** [database.lineno(location)] and [database.getNode(node_id)]; a
    definition that is absent has no node of a known type. *)
Variable lineno : Z -> lineinfo.
Variable getNode : Z -> option dbnode.

(** The state of a [StackBasedEngine], with the target it grounds into
    and the [DefineCache] stored in [target._cache]. [e_cycle_root] is
    the pointer of the [EvalDefine] object [self.cycle_root]. *)
Record engine := {
  e_stack : list (option record);
  e_pointer : nat;
  e_stack_size : nat;
  e_cycle_root : option nat;
  e_target : tstate;
  e_cache : DefineCache;
  e_label_all : bool;
  e_unknown : Z;
}.

Definition UNKNOWN_ERROR : Z := 0.
Definition UNKNOWN_FAIL : Z := 1.

Definition with_stack (e : engine) (s : list (option record)) (p : nat)
  : engine :=
  {| e_stack := s; e_pointer := p; e_stack_size := e_stack_size e;
     e_cycle_root := e_cycle_root e; e_target := e_target e;
     e_cache := e_cache e; e_label_all := e_label_all e;
     e_unknown := e_unknown e |}.

Definition with_cycle_root (e : engine) (cr : option nat) : engine :=
  {| e_stack := e_stack e; e_pointer := e_pointer e;
     e_stack_size := e_stack_size e; e_cycle_root := cr;
     e_target := e_target e; e_cache := e_cache e;
     e_label_all := e_label_all e; e_unknown := e_unknown e |}.

Definition with_target (e : engine) (t : tstate) : engine :=
  {| e_stack := e_stack e; e_pointer := e_pointer e;
     e_stack_size := e_stack_size e; e_cycle_root := e_cycle_root e;
     e_target := t; e_cache := e_cache e;
     e_label_all := e_label_all e; e_unknown := e_unknown e |}.

(** [self.stack[i] = r] on a slot that exists. *)
Definition set_slot (e : engine) (i : nat) (r : option record) : engine :=
  with_stack e (<[i := r]> (e_stack e)) (e_pointer e).

(** [grow_stack]. *)
Definition grow_stack (e : engine) : engine :=
  {| e_stack := e_stack e ++ replicate (e_stack_size e) None;
     e_pointer := e_pointer e; e_stack_size := e_stack_size e * 2;
     e_cycle_root := e_cycle_root e; e_target := e_target e;
     e_cache := e_cache e; e_label_all := e_label_all e;
     e_unknown := e_unknown e |}.

(** [shrink_stack]. *)
Definition shrink_stack (e : engine) : engine :=
  {| e_stack := replicate 128 None; e_pointer := e_pointer e;
     e_stack_size := 128; e_cycle_root := e_cycle_root e;
     e_target := e_target e; e_cache := e_cache e;
     e_label_all := e_label_all e; e_unknown := e_unknown e |}.

(** [add_record]: the assignment [self.stack[self.pointer] = record]
    raises [IndexError] past the end of the list. *)
Definition add_record (e : engine) (r : record) : res engine :=
  let e1 := if (e_stack_size e <=? e_pointer e)%nat then grow_stack e else e in
  if (e_pointer e1 <? length (e_stack e1))%nat then
    Ok (with_stack e1 (<[e_pointer e1 := Some r]> (e_stack e1)) (S (e_pointer e1)))
  else Err IndexError.

(** The rewind loop of [cleanUp]: [while self.pointer > 0 and
    self.stack[self.pointer-1] is None: self.pointer -= 1]. *)
Fixpoint rewind (s : list (option record)) (p : nat) : res nat :=
  match p with
  | O => Ok O
  | S q =>
      match s !! q with
      | None => Err IndexError
      | Some None => rewind s q
      | Some (Some _) => Ok p
      end
  end.

(** [cleanUp(obj)]. *)
Definition cleanUp (e : engine) (obj : nat) : res engine :=
  let e1 := if bool_decide (e_cycle_root e = Some obj)
            then with_cycle_root e None else e in
  if (obj <? length (e_stack e1))%nat then
    let s := <[obj := None]> (e_stack e1) in
    p <-? rewind s (e_pointer e1) ;;
    Ok (with_stack e1 s p)
  else Err IndexError.

(* ------------------------------------------------------------------ *)
(** ** Cycle closure: [EvalDefine.closeCycle] *)

(** [closeCycle(toplevel)] on the Define record [b]/[d]. *)
Definition closeCycle (e : engine) (b : evalnode) (d : define_fields)
    (toplevel : bool) : engine * list action :=
  if d_is_cycle_root d && toplevel then
    (with_cycle_root e None,
     List.concat (map (fun cc => notifyComplete b (Some cc))
                      (elements (d_cycle_close d))))
  else (e, []).

(** [self.cycle_root.closeCycle(True)] in the driver; the object held by
    [cycle_root] is the Define record at that pointer. *)
Definition root_closeCycle (e : engine) : res (engine * list action) :=
  match e_cycle_root e with
  | None => Err TypeError
  | Some r =>
      match e_stack e !! r with
      | Some (Some (EvalDefine b d)) => Ok (closeCycle e b d true)
      | _ => Err TypeError
      end
  end.

(* ------------------------------------------------------------------ *)
(** ** Collapse, flushBuffer and createCycle *)

(** [ResultSet.collapse(function)], threading the target state. *)
Fixpoint collapse_entries (f : tstate -> context -> rsval -> res (tstate * rsval))
    (t : tstate) (l : list (context * rsval))
  : res (tstate * list (context * rsval)) :=
  match l with
  | [] => Ok (t, [])
  | (r, v) :: l' =>
      tv <-? f t r v ;;
      let '(t1, v1) := tv in
      tl <-? collapse_entries f t1 l' ;;
      let '(t2, l2) := tl in
      Ok (t2, (r, v1) :: l2)
  end.

Definition rs_collapse (f : tstate -> context -> rsval -> res (tstate * rsval))
    (t : tstate) (rs : ResultSet) : res (tstate * ResultSet) :=
  if rs_collapsed rs then Ok (t, rs)
  else (tl <-? collapse_entries f t (rs_results rs) ;;
        let '(t1, l) := tl in
        Ok (t1, {| rs_results := l; rs_collapsed := true |})).

(** The argument [nodes] of the collapse functions: the list built
    before the collapse. *)
Definition entry_nodes (v : rsval) : res (list gnode) :=
  match v with Nodes l => Ok l | One _ => Err TypeError end.

(** [EvalOr.flushBuffer(cycle)]. *)
Definition or_flushBuffer (t : tstate) (rs : ResultSet) (cycle : bool)
  : res (tstate * ResultSet) :=
  rs_collapse (fun t _ v => ns <-? entry_nodes v ;;
                            let '(t1, n) := t_addOr t ns (negb cycle) in
                            Ok (t1, One n)) t rs.

(** [EvalDefine.flushBuffer(cycle)]: a result already completed in the
    cache reuses its node, otherwise a new Or node is made. *)
Definition define_flushBuffer (e : engine) (functor : string)
    (rs : ResultSet) (cycle : bool) : res (tstate * ResultSet) :=
  let func (t : tstate) (r : context) (v : rsval) : res (tstate * rsval) :=
    let cache_key := (functor, r) in
    tn <-? (if dc_contains (e_cache e) cache_key then
              stored <-? dc_getitem (e_cache e) cache_key ;;
              match stored with
              | [(_, n)] => Ok (t, n)
              | _ => Err AssertionError
              end
            else
              ns <-? entry_nodes v ;;
              let '(t1, n) := t_addOr t ns (negb cycle) in Ok (t1, One n)) ;;
    let '(t1, n) := tn in
    let t2 := if e_label_all e then t_addName t1 (App functor r) n else t1 in
    Ok (t2, n) in
  rs_collapse func (e_target e) rs.

(** The ground node of a collapsed entry. Every loop below that forwards
    the entries of a result set runs right after a collapse. *)
Definition entry_node (v : rsval) : res gnode :=
  match v with One n => Ok n | Nodes _ => Err TypeError end.

(** [for result, node in self.results: actions += self.notifyResult(result, node)]. *)
Fixpoint notify_all (b : evalnode) (l : list (context * rsval)) : res (list action) :=
  match l with
  | [] => Ok []
  | (r, v) :: l' =>
      n <-? entry_node v ;;
      rest <-? notify_all b l' ;;
      Ok (notifyResult b r n false None ++ rest)
  end.

(** [createCycle] of every record variant: the new engine state (the
    record itself is written back into its slot by the caller), the
    updated record and the actions it asks for. *)
Definition createCycle (e : engine) (r : record)
  : res (engine * record * list action) :=
  match r with
  | EvalNot b _ => Err (NegativeCycle (lineno (en_location b)))
  | EvalOr b rs tc =>
      let b' := set_on_cycle b in
      trs <-? or_flushBuffer (e_target e) rs true ;;
      let '(t1, rs1) := trs in
      acts <-? notify_all b' (rs_results rs1) ;;
      Ok (with_target e t1, EvalOr b' rs1 tc, acts)
  | EvalDefine b d =>
      if en_on_cycle b then Ok (e, r, [])
      else if d_is_cycle_root d then Ok (e, r, [])
      else
        let b' := set_on_cycle b in
        trs <-? define_flushBuffer e (d_functor d) (d_results d) true ;;
        let '(t1, rs1) := trs in
        let d' := {| d_functor := d_functor d; d_results := rs1;
                     d_cycle_children := d_cycle_children d;
                     d_cycle_close := d_cycle_close d;
                     d_is_cycle_root := d_is_cycle_root d;
                     d_is_cycle_child := d_is_cycle_child d;
                     d_is_cycle_parent := d_is_cycle_parent d;
                     d_to_complete := d_to_complete d;
                     d_is_ground := d_is_ground d |} in
        acts <-? notify_all b' (rs_results rs1) ;;
        Ok (with_target e t1, EvalDefine b' d', acts)
  | EvalAnd b tc => Ok (e, EvalAnd (set_on_cycle b) tc, [])
  | EvalBuiltIn b => Ok (e, EvalBuiltIn (set_on_cycle b), [])
  end.

(* ------------------------------------------------------------------ *)
(** ** The cycle walks: [notifyCycle] and [checkCycle] *)

(** The [while current != root] loop of [notifyCycle]; [loc] is
    [childnode.database.lineno(childnode.node.location)]. *)
Fixpoint notify_walk (fuel : nat) (e : engine) (root : nat) (loc : lineinfo)
    (current : option nat) (actions : list action)
  : res (engine * list action) :=
  match fuel with
  | O => Err Diverge
  | S fuel' =>
      if bool_decide (current = Some root) then Ok (e, actions)
      else
        match current with
        | None => Err (IndirectCallCycleError loc)
        | Some c =>
            match e_stack e !! c with
            | None => Err IndexError
            | Some None => Err TypeError
            | Some (Some exec_node) =>
                if rec_on_cycle exec_node then Ok (e, actions)
                else
                  x <-? createCycle e exec_node ;;
                  let '(e1, exec_node', new_actions) := x in
                  notify_walk fuel' (set_slot e1 c (Some exec_node')) root loc
                    (rec_parent exec_node') (actions ++ new_actions)
            end
        end
  end.

(** [notifyCycle(childnode)]. *)
Definition notifyCycle (fuel : nat) (e : engine) (childnode : evalnode)
  : res (engine * list action) :=
  match e_cycle_root e with
  | None => Err AssertionError
  | Some root =>
      notify_walk fuel e root (lineno (en_location childnode))
        (en_parent childnode) []
  end.

(** [checkCycle(child, parent)]. *)
Fixpoint checkCycle (fuel : nat) (e : engine) (current : option nat)
    (parent : nat) : res unit :=
  match fuel with
  | O => Err Diverge
  | S fuel' =>
      if bool_decide (current = Some parent) then Ok tt
      else
        match current with
        | None => Err TypeError               (** [self.stack[None]] *)
        | Some c =>
            match e_stack e !! c with
            | None => Err IndexError
            | Some None => Err TypeError
            | Some (Some exec_node) =>
                if rec_on_cycle exec_node then Ok tt
                else if is_EvalNot exec_node then
                  Err (NegativeCycle (lineno (en_location (rec_base exec_node))))
                else checkCycle fuel' e (rec_parent exec_node) parent
            end
        end
  end.

(* ------------------------------------------------------------------ *)
(** ** [EvalNot] *)

(** [EvalNot.complete(source)]: the target state, the cleanup flag and
    the actions. *)
Definition not_complete (t : tstate) (b : evalnode) (nodes : list gnode)
  : tstate * bool * list action :=
  match nodes with
  | _ :: _ =>
      let '(t1, o) := t_addOr t nodes true in
      let '(t2, or_node) := t_addNot t1 o in
      let acts := if bool_decide (or_node = NODE_FALSE) then []
                  else notifyResult b (en_context b) or_node false None in
      (t2, true, acts ++ notifyComplete b None)
  | [] =>
      (t, true, notifyResult b (en_context b) NODE_TRUE false None
                  ++ notifyComplete b None)
  end.

(** [EvalNot.newResult(result, node, source, is_last)]: the new [nodes]
    set (a list without duplicates, in insertion order) and the outcome. *)
Definition not_newResult (t : tstate) (b : evalnode) (nodes : list gnode)
    (node : gnode) (is_last : bool)
  : list gnode * (tstate * bool * list action) :=
  let nodes' := if bool_decide (node = NODE_FALSE) then nodes
                else if bool_decide (node ∈ nodes) then nodes
                else nodes ++ [node] in
  if is_last then (nodes', not_complete t b nodes')
  else (nodes', (t, false, [])).

(* ------------------------------------------------------------------ *)
(** ** [eval_disj] and [EvalOr.__init__] *)

(** [EvalNode.createCall(node_id)]: the base keyword arguments. *)
Definition createCall (b : evalnode) (node_id : Z) : action :=
  ACall node_id {| kw_parent := Some (en_pointer b);
                   kw_identifier := en_identifier b;
                   kw_context := en_context b;
                   kw_transform := None;
                   kw_call_origin := None |}.

(** [StackBasedEngine.eval_disj(parent, node, **kwdargs)]. *)
Definition eval_disj (e : engine) (node_id : Z) (children : list Z)
    (location : Z) (kw : kwargs) : res (engine * list action) :=
  match children with
  | [] => Ok (e, [AComplete (kw_parent kw) None])
  | _ :: _ =>
      let b := {| en_node_id := node_id; en_location := location;
                  en_context := kw_context kw; en_parent := kw_parent kw;
                  en_identifier := kw_identifier kw;
                  en_pointer := e_pointer e;
                  en_transform := kw_transform kw; en_on_cycle := false |} in
      let evalnode := EvalOr b ResultSet_new (Z.of_nat (length children)) in
      e1 <-? add_record e evalnode ;;
      Ok (e1, map (createCall b) children)
  end.

(* ------------------------------------------------------------------ *)
(** ** Dispatch: [eval], [eval_call], [eval_neg], [eval_conj] *)

(** The helpers of [problog.engine] that [eval_call] uses, and the
    evaluators of the node kinds whose records are not modelled here
    ([fact], [define], [clause], [choice], the built-ins) and of the
    messages to those records. *)
Variable VT : Type.
Variable substitute_call_args : list term -> context -> list term * VT.
(** [unify_call_return(result, args, output, var_translate)]; [None] is
    a [UnifyError]. *)
Variable unify_call_return : context -> list term -> context -> VT -> option context.
(** [unify(a, b)] succeeds. *)
Variable unify : term -> term -> bool.
Variable clone_context : context -> context.
Variable eval_other : engine -> Z -> dbnode -> kwargs -> res (engine * list action).
Variable eval_builtin : engine -> Z -> kwargs -> res (engine * list action).
Variable deliver_other : engine -> nat -> record -> action -> res (engine * bool * list action).

(** [eval_default(EvalNot)]: [EvalNot.__call__] asks for its child and
    does not clean up, so the record is added. *)
Definition eval_neg (e : engine) (node_id : Z) (child : Z) (location : Z)
    (kw : kwargs) : res (engine * list action) :=
  let b := {| en_node_id := node_id; en_location := location;
              en_context := kw_context kw; en_parent := kw_parent kw;
              en_identifier := kw_identifier kw; en_pointer := e_pointer e;
              en_transform := kw_transform kw; en_on_cycle := false |} in
  e1 <-? add_record e (EvalNot b []) ;;
  Ok (e1, [createCall b child]).

(** [eval_default(EvalAnd)]: [createCall(children[0], identifier=None)]. *)
Definition eval_conj (e : engine) (node_id : Z) (children : list Z)
    (kw : kwargs) : res (engine * list action) :=
  let b := {| en_node_id := node_id; en_location := 0;
              en_context := kw_context kw; en_parent := kw_parent kw;
              en_identifier := kw_identifier kw; en_pointer := e_pointer e;
              en_transform := kw_transform kw; en_on_cycle := false |} in
  match children with
  | [] => Err IndexError
  | c0 :: _ =>
      e1 <-? add_record e (EvalAnd b 1) ;;
      let a := match createCall b c0 with
               | ACall n k => ACall n {| kw_parent := kw_parent k;
                                         kw_identifier := None;
                                         kw_context := kw_context k;
                                         kw_transform := kw_transform k;
                                         kw_call_origin := kw_call_origin k |}
               | a => a
               end in
      Ok (e1, [a])
  end.

Definition apply_transform (transform : option Transformations) (c : context)
  : option context :=
  match transform with
  | Some t => Transformations_call t c
  | None => Some c
  end.

(** [eval(node_id, **kwdargs)] and [eval_call], which calls [eval] on
    the definition it resolves to. *)
Fixpoint eval (fuel : nat) (e : engine) (node_id : Z) (kw : kwargs)
  : res (engine * list action) :=
  match fuel with
  | O => Err Diverge
  | S fuel' =>
  if node_id <? 0 then eval_builtin e node_id kw
  else
    match getNode node_id with
    | None =>
        (* [exec_func is None] *)
        if e_unknown e =? UNKNOWN_FAIL
        then Ok (e, [AComplete (kw_parent kw) (kw_identifier kw)])
        else Err UnknownClause_internal
    | Some (NDisj children location) => eval_disj e node_id children location kw
    | Some (NNeg child location) => eval_neg e node_id child location kw
    | Some (NConj children) => eval_conj e node_id children kw
    | Some (NCall functor args defnode location) =>
        (* [eval_call] *)
        let context := kw_context kw in
        let parent := kw_parent kw in
        let identifier := kw_identifier kw in
        let transform := kw_transform kw in
        let '(call_args, var_translate) := substitute_call_args args context in
        let result_transform : tfun :=
          if defnode =? -6 then
            fun result =>
              let output := clone_context context in
              (* [assert(len(result) == len(node.args))] *)
              if (length result =? length args)%nat then
                match last result, last args with
                | Some r, Some a => unify_call_return [r] [a] output var_translate
                | _, _ => None
                end
              else None
          else
            fun result =>
              let output := clone_context context in
              if (length result =? length args)%nat then
                unify_call_return result args output var_translate
              else None in
        if defnode =? -5 then
          match call_args with
          | a0 :: a1 :: _ =>
              if unify a0 a1 then Ok (e, [AComplete parent identifier])
              else Ok (e, [AResult parent (apply_transform transform context)
                             NODE_TRUE identifier true])
          | _ => Err IndexError
          end
        else if defnode =? -1 then
          Ok (e, [AResult parent (apply_transform transform context)
                    NODE_TRUE identifier true])
        else if (defnode =? -2) || (defnode =? -3) then
          Ok (e, [AComplete parent identifier])
        else
          let t := match transform with
                   | None => Transformations_new
                   | Some t => t
                   end in
          let t' := addFunction t result_transform in
          let origin := (functor ++ "/" ++ pretty (length args))%string in
          let kw' := {| kw_parent := parent; kw_identifier := identifier;
                        kw_context := call_args; kw_transform := Some t';
                        kw_call_origin := Some (origin, location) |} in
          match eval fuel' e defnode kw' with
          | Err UnknownClause_internal => Err (UnknownClause origin (lineno location))
          | r => r
          end
    | Some n => eval_other e node_id n kw
    end
  end.

(* ------------------------------------------------------------------ *)
(** ** The trampoline: [StackBasedEngine.execute] *)

(** A message to the record at [obj]: [exec_node.newResult(...)] or
    [exec_node.complete(...)]; the record is written back to its slot. *)
Definition deliver (e : engine) (obj : nat) (r : record) (act : action)
  : res (engine * bool * list action) :=
  match r, act with
  | EvalNot b nodes, AResult _ _ node _ is_last =>
      let '(nodes', (t, cl, acts)) := not_newResult (e_target e) b nodes node is_last in
      Ok (set_slot (with_target e t) obj (Some (EvalNot b nodes')), cl, acts)
  | EvalNot b nodes, AComplete _ _ =>
      let '(t, cl, acts) := not_complete (e_target e) b nodes in
      Ok (set_slot (with_target e t) obj (Some (EvalNot b nodes)), cl, acts)
  | _, _ => deliver_other e obj r act
  end.

(** The [while actions] loop. Python's [actions] is popped at its end and
    extended with [reversed(next_actions)]; here the list is kept with
    its top first, so popping takes the head and extending prepends
    [next_actions] as it is. *)
Fixpoint exec_loop (fuel : nat) (subcall : bool) (e : engine)
    (actions : list action) (solutions : list (option context * gnode))
  : res (list (option context * gnode) * engine) :=
  match fuel with
  | O => Err Diverge
  | S fuel' =>
  match actions with
  | [] => Err (InvalidEngineState "Engine did not complete correctly!")
  | act :: rest =>
      match act with
      | AResult None result node _ is_last =>
          let solutions' := solutions ++ [(result, node)] in
          if is_last then
            if negb subcall && negb (e_pointer e =? 0)%nat
            then Err (InvalidEngineState "Stack not empty at end of execution!")
            else Ok (solutions', if subcall then e else shrink_stack e)
          else exec_loop fuel' subcall e rest solutions'
      | AComplete None _ => Ok (solutions, e)
      | _ =>
          step <-?
            match act with
            | ACall obj kw =>
                let evaluate :=
                  match eval fuel' e obj kw with
                  | Ok (e1, next) => Ok (e1, false, next, e_pointer e1)
                  | Err UnknownClause_internal =>
                      match kw_call_origin kw with
                      | None => Err (UnknownClause "unknown" None)
                      | Some (o, l) => Err (UnknownClause o (lineno l))
                      end
                  | Err x => Err x
                  end in
                match e_cycle_root e, kw_parent kw with
                | Some r, Some p =>
                    if (p <? r)%nat then
                      ec <-? root_closeCycle e ;;
                      let '(e1, cl) := ec in
                      Ok (e1, false, cl ++ [act], O)
                    else evaluate
                | Some _, None => Err TypeError   (* [None < int] *)
                | None, _ => evaluate
                end
            | AResult (Some obj) _ _ _ _ | AComplete (Some obj) _ =>
                match e_stack e !! obj with
                | None => Err (InvalidEngineState "Non-existing pointer")
                | Some None => Err (InvalidEngineState "Invalid node at given pointer")
                | Some (Some exec_node) =>
                    x <-? deliver e obj exec_node act ;;
                    let '(e1, cl, next) := x in
                    Ok (e1, cl, next, obj)
                end
            | _ => Err (InvalidEngineState "Unknown message")
            end ;;
          let '(e1, clean, next_actions, obj) := step in
          x <-? (if (match rest, next_actions, e_cycle_root e1 with
                     | [], [], Some _ => true
                     | _, _, _ => false
                     end)
                 then root_closeCycle e1 else Ok (e1, next_actions)) ;;
          let '(e2, next') := x in
          e3 <-? (if clean then cleanUp e2 obj else Ok e2) ;;
          exec_loop fuel' subcall e3 (next' ++ rest) solutions
      end
  end
  end.

(** [execute(node_id, subcall, **kwdargs)]: the initial [eval] with
    [parent=None], then the loop. The target's [_cache] is the engine's
    [e_cache]. *)
Definition execute (fuel : nat) (subcall : bool) (e : engine) (node_id : Z)
    (kw : kwargs) : res (list (option context * gnode) * engine) :=
  let kw0 := {| kw_parent := None; kw_identifier := kw_identifier kw;
                kw_context := kw_context kw; kw_transform := kw_transform kw;
                kw_call_origin := kw_call_origin kw |} in
  ea <-? eval fuel e node_id kw0 ;;
  let '(e1, actions) := ea in
  exec_loop fuel subcall e1 actions [].

End Engine.

(* ------------------------------------------------------------------ *)
(** ** A small concrete setting for evaluated examples *)

(** A target in the manner of [LogicFormula]: node ids are allocated
    from a counter, a read-only Or of one node is that node, the empty Or
    is [NODE_FALSE], and negation flips the sign of an id, with [TRUE]
    and [FALSE] swapped. *)
Definition ex_addOr (t : Z) (l : list gnode) (readonly : bool) : Z * gnode :=
  match l with
  | [] => (t, NODE_FALSE)
  | [x] => if readonly then (t, x) else (t + 1, Some (t + 1))
  | _ => (t + 1, Some (t + 1))
  end.

Definition ex_addNot (t : Z) (n : gnode) : Z * gnode :=
  match n with
  | None => (t, NODE_TRUE)
  | Some 0 => (t, NODE_FALSE)
  | Some k => (t, Some (- k))
  end.

Definition ExTarget : Target :=
  {| tstate := Z; t_addOr := ex_addOr; t_addNot := ex_addNot;
     t_addDisjunct := fun t _ _ => t; t_addName := fun t _ _ => t |}.

Definition ex_lineno (l : Z) : lineinfo := Some ("prog.pl"%string, l, 0).

(** A database: node 5 is a disjunction without children, node 6 a call
    [foo(a)] whose definition, node 9, is absent, node 7 a disjunction of
    nodes 6 and 8, node 8 a negation. *)
Definition ex_getNode (n : Z) : option dbnode :=
  if n =? 5 then Some (NDisj [] 40)
  else if n =? 6 then Some (NCall "foo" [Cst "a"] 9 31)
  else if n =? 7 then Some (NDisj [6; 8] 41)
  else if n =? 8 then Some (NNeg 6 12)
  else None.

Definition ex_substitute_call_args (args : list term) (c : context)
  : list term * unit := (args, tt).
Definition ex_unify_call_return (r : context) (args : list term)
    (out : context) (vt : unit) : option context := Some r.

(** Evaluators for the kinds that are not modelled: they complete at
    once. *)
Definition ex_eval_other (e : @engine ExTarget) (n : Z) (d : dbnode)
    (kw : kwargs) : res (@engine ExTarget * list action) :=
  Ok (e, [AComplete (kw_parent kw) (kw_identifier kw)]).
Definition ex_eval_builtin (e : @engine ExTarget) (n : Z) (kw : kwargs)
  : res (@engine ExTarget * list action) :=
  Ok (e, [AComplete (kw_parent kw) (kw_identifier kw)]).
Definition ex_deliver_other (e : @engine ExTarget) (obj : nat) (r : record)
    (a : action) : res (@engine ExTarget * bool * list action) :=
  Ok (e, true, []).

Definition ex_eval :=
  @eval ExTarget ex_lineno ex_getNode unit ex_substitute_call_args
    ex_unify_call_return term_eqb (fun c => c) ex_eval_other ex_eval_builtin.

Definition ex_execute :=
  @execute ExTarget ex_lineno ex_getNode unit ex_substitute_call_args
    ex_unify_call_return term_eqb (fun c => c) ex_eval_other ex_eval_builtin
    ex_deliver_other.

Definition ex_exec_loop :=
  @exec_loop ExTarget ex_lineno ex_getNode unit ex_substitute_call_args
    ex_unify_call_return term_eqb (fun c => c) ex_eval_other ex_eval_builtin
    ex_deliver_other.

Definition ex_kw : kwargs :=
  {| kw_parent := Some 3%nat; kw_identifier := None; kw_context := [Cst "a"];
     kw_transform := None; kw_call_origin := None |}.

Definition ex_base (p : nat) (parent : option nat) (t : option Transformations)
  : evalnode :=
  {| en_node_id := 8; en_location := 12; en_context := [Cst "a"];
     en_parent := parent; en_identifier := None; en_pointer := p;
     en_transform := t; en_on_cycle := false |}.

(** A fresh engine with 128 empty slots. *)
Definition ex_engine (unknown : Z) : @engine ExTarget :=
  @Build_engine ExTarget (replicate 128 None) 0 128 None (100 : Z)
    DefineCache_new false unknown.

(** An engine whose previous top-level [execute] was aborted by an
    exception after it had allocated a Not record in slot 0. *)
Definition ex_stale_engine : @engine ExTarget :=
  @Build_engine ExTarget
    (Some (EvalNot (ex_base 0 None None) []) :: replicate 127 None) 1 128
    None (100 : Z) DefineCache_new false UNKNOWN_ERROR.

(** A cycle root at slot 0 (a Define with [is_cycle_root]) waiting to
    close the cycle child in slot 1. *)
Definition ex_root_fields : define_fields :=
  {| d_functor := "p"; d_results := ResultSet_new; d_cycle_children := [1%nat];
     d_cycle_close := {[ 1%nat ]}; d_is_cycle_root := true;
     d_is_cycle_child := false; d_is_cycle_parent := false;
     d_to_complete := 1; d_is_ground := true |}.

Definition ex_child_fields : define_fields :=
  {| d_functor := "p"; d_results := ResultSet_new; d_cycle_children := [];
     d_cycle_close := ∅; d_is_cycle_root := false;
     d_is_cycle_child := true; d_is_cycle_parent := false;
     d_to_complete := 0; d_is_ground := true |}.

Definition ex_cycle_engine : @engine ExTarget :=
  @Build_engine ExTarget
    (Some (EvalDefine (ex_base 0 None None) ex_root_fields)
     :: Some (EvalDefine (ex_base 1 (Some 0%nat) None) ex_child_fields)
     :: replicate 126 None) 2 128
    (Some 0%nat) (100 : Z) DefineCache_new false UNKNOWN_ERROR.

(** A transform whose only step drops every result. *)
Definition ex_drop : Transformations := addFunction Transformations_new (fun _ => None).

(** A chain of the inductive path [checkCycle] follows from [current] to
    the record at [n]: every record passed is off-cycle, not a Not, and
    is not [parent]. *)
Inductive check_path {T : Target} (e : engine) (parent : nat)
  : option nat -> nat -> nat -> Prop :=
| cp_here (n : nat) : check_path e parent (Some n) n O
| cp_step (p : nat) (r : record) (n k : nat) :
    p <> parent ->
    e_stack e !! p = Some (Some r) ->
    rec_on_cycle r = false ->
    is_EvalNot r = false ->
    check_path e parent (rec_parent r) n k ->
    check_path e parent (Some p) n (S k).

(** The message is a [complete] addressed to the record at [cc]. *)
Definition is_complete_to (cc : nat) (a : action) : bool :=
  match a with
  | AComplete (Some c) _ => Nat.eqb c cc
  | _ => false
  end.

(* ------------------------------------------------------------------ *)
(** ** [NestedDict] as the code builds it *)

(** The dictionaries of [NestedDict] are Python dicts: an association
    list in insertion order, where an assignment to a present key keeps
    its place and [del] of a missing key raises [KeyError]. *)
Fixpoint assoc_get {K V} (eqb : K -> K -> bool) (k : K) (l : list (K * V))
  : option V :=
  match l with
  | [] => None
  | (k', v) :: l' => if eqb k k' then Some v else assoc_get eqb k l'
  end.

Fixpoint assoc_set {K V} (eqb : K -> K -> bool) (k : K) (v : V)
    (l : list (K * V)) : list (K * V) :=
  match l with
  | [] => [(k, v)]
  | (k', v') :: l' =>
      if eqb k k' then (k', v) :: l' else (k', v') :: assoc_set eqb k v l'
  end.

Fixpoint assoc_del {K V} (eqb : K -> K -> bool) (k : K) (l : list (K * V))
  : res (list (K * V)) :=
  match l with
  | [] => Err KeyError
  | (k', v') :: l' =>
      if eqb k k' then Ok l'
      else (l'' <-? assoc_del eqb k l' ;; Ok ((k', v') :: l''))
  end.

(** A value of the nested dictionaries: a stored value, or a dict keyed
    by the next argument. *)
Inductive ndnode (V : Type) :=
| NDLeaf (v : V)
| NDDict (m : list (term * ndnode V)).
Arguments NDLeaf {V} v.
Arguments NDDict {V} m.

(** [self.__base], keyed by [(functor, len(args))]. *)
Definition ndbase (V : Type) := list ((string * nat) * ndnode V).

Definition pkey_eqb (a b : string * nat) : bool :=
  String.eqb a.1 b.1 && Nat.eqb a.2 b.2.

(** The dict below [elem] as the loops see it: a stored value there
    (never the case when every key of one functor and arity has the same
    number of arguments) is not subscriptable. *)
Definition nd_children {V} (n : ndnode V) : res (list (term * ndnode V)) :=
  match n with
  | NDDict m => Ok m
  | NDLeaf _ => Err TypeError
  end.

(** The loop [for s in s_key: elem = elem[s]]. *)
Fixpoint nd_path {V} (elem : ndnode V) (s_key : list term) : res (ndnode V) :=
  match s_key with
  | [] => Ok elem
  | s :: ss =>
      m <-? nd_children elem ;;
      match assoc_get term_eqb s m with
      | None => Err KeyError
      | Some e' => nd_path e' ss
      end
  end.

(** [NestedDict.__getitem__(key)]. *)
Definition ndt_getitem {V} (base : ndbase V) (k : key) : res (ndnode V) :=
  match assoc_get pkey_eqb (k.1, length k.2) base with
  | None => Err KeyError
  | Some elem => nd_path elem k.2
  end.

(** [NestedDict.get(key)]: only a [KeyError] gives the default. *)
Definition ndt_get {V} (base : ndbase V) (k : key) : res (option (ndnode V)) :=
  match ndt_getitem base k with
  | Ok n => Ok (Some n)
  | Err KeyError => Ok None
  | Err x => Err x
  end.

(** [NestedDict.__contains__(key)]. *)
Definition ndt_contains {V} (base : ndbase V) (k : key) : res bool :=
  match ndt_getitem base k with
  | Ok _ => Ok true
  | Err KeyError => Ok false
  | Err x => Err x
  end.

(** The descent of [__setitem__]: [elem.get(s)], a new dict when it is
    [None], then [elem[s_key[-1]] = value] at the end. *)
Fixpoint nd_put {V} (m : list (term * ndnode V)) (s : term) (ss : list term)
    (v : V) : res (list (term * ndnode V)) :=
  match ss with
  | [] => Ok (assoc_set term_eqb s (NDLeaf v) m)
  | s' :: ss' =>
      child <-? (match assoc_get term_eqb s m with
                 | None => Ok []
                 | Some n => nd_children n
                 end) ;;
      child' <-? nd_put child s' ss' v ;;
      Ok (assoc_set term_eqb s (NDDict child') m)
  end.

(** [NestedDict.__setitem__(key, value)]. *)
Definition ndt_setitem {V} (base : ndbase V) (k : key) (v : V) : res (ndbase V) :=
  let p_key := (k.1, length k.2) in
  match k.2 with
  | [] => Ok (assoc_set pkey_eqb p_key (NDLeaf v) base)
  | s :: ss =>
      elem <-? (match assoc_get pkey_eqb p_key base with
                | None => Ok []
                | Some n => nd_children n
                end) ;;
      m' <-? nd_put elem s ss v ;;
      Ok (assoc_set pkey_eqb p_key (NDDict m') base)
  end.

(** The descent of [__delitem__] with its clean-up loop: a dict left
    empty is removed from its parent, innermost first. *)
Fixpoint nd_remove {V} (m : list (term * ndnode V)) (s : term) (ss : list term)
  : res (list (term * ndnode V)) :=
  match ss with
  | [] => assoc_del term_eqb s m
  | s' :: ss' =>
      child <-? (match assoc_get term_eqb s m with
                 | None => Err KeyError
                 | Some n => nd_children n
                 end) ;;
      child' <-? nd_remove child s' ss' ;;
      match child' with
      | [] => assoc_del term_eqb s m
      | _ :: _ => Ok (assoc_set term_eqb s (NDDict child') m)
      end
  end.

(** [NestedDict.__delitem__(key)]. *)
Definition ndt_delitem {V} (base : ndbase V) (k : key) : res (ndbase V) :=
  let p_key := (k.1, length k.2) in
  match k.2 with
  | [] => assoc_del pkey_eqb p_key base
  | s :: ss =>
      elem <-? (match assoc_get pkey_eqb p_key base with
                | None => Err KeyError
                | Some n => nd_children n
                end) ;;
      m' <-? nd_remove elem s ss ;;
      match m' with
      | [] => assoc_del pkey_eqb p_key base
      | _ :: _ => Ok (assoc_set pkey_eqb p_key (NDDict m') base)
      end
  end.

(** The stored value a successful descent ends at. *)
Definition nd_value {V} (r : res (ndnode V)) : option V :=
  match r with
  | Ok (NDLeaf v) => Some v
  | _ => None
  end.

(** The value a key maps to. *)
Definition ndt_lookup {V} (base : ndbase V) (k : key) : option V :=
  nd_value (ndt_getitem base k).

(** The shape [__setitem__] gives the dict under [(functor, n)]: a
    stored value after exactly [n] levels of non-empty dicts whose keys
    are distinct. *)
Fixpoint nd_shape {V} (n : nat) (t : ndnode V) : Prop :=
  match n, t with
  | O, NDLeaf _ => True
  | S n', NDDict m =>
      m <> [] /\ NoDup (map fst m) /\ Forall (fun kv => nd_shape n' kv.2) m
  | _, _ => False
  end.

Definition ndt_wf {V} (base : ndbase V) : Prop :=
  NoDup (map fst base) /\ Forall (fun kv => nd_shape kv.1.2 kv.2) base.

(* ------------------------------------------------------------------ *)
(** ** The arena's bookkeeping *)

(** What [add_record] and [cleanUp] keep of the arena: the list has
    [stack_size] slots, the pointer is within it, no record lies at or
    above the pointer, and the slot just below it holds a record. *)
Definition arena_ok {T : Target} (e : engine) : Prop :=
  length (e_stack e) = e_stack_size e /\ (0 < e_stack_size e)%nat /\
  (e_pointer e <= e_stack_size e)%nat /\
  Forall (fun o => o = None) (drop (e_pointer e) (e_stack e)) /\
  (e_pointer e = 0%nat \/ is_Some (mjoin (e_stack e !! pred (e_pointer e)))).

(* ------------------------------------------------------------------ *)
(** ** What [ResultSet] and [EvalAnd] keep *)

(** Each entry of a result set holds a list of nodes before the
    collapse and a single node after it. *)
Definition rs_consistent (rs : ResultSet) : Prop :=
  Forall (fun rv => match rv.2 with
                    | Nodes _ => rs_collapsed rs = false
                    | One _ => rs_collapsed rs = true
                    end) (rs_results rs).

(** [EvalAnd.to_complete] as the conjunction's outstanding work: the
    first conjunct while it runs, and each call of the second conjunct
    that has not completed. *)
Definition and_pending (first_running : bool) (outstanding : nat) : Z :=
  (if first_running then 1 else 0) + Z.of_nat outstanding.

(* ------------------------------------------------------------------ *)
(** ** Messages that end a record's answer *)

(** A message that tells its destination the answer is over: a result
    marked last or a [complete]. *)
Definition is_terminal (a : action) : bool :=
  match a with
  | AResult _ _ _ _ is_last => is_last
  | AComplete _ _ => true
  | ACall _ _ => false
  end.

(** The destination of a result or [complete] message. *)
Definition dest (a : action) : option (option nat) :=
  match a with
  | AResult d _ _ _ _ | AComplete d _ => Some d
  | ACall _ _ => None
  end.

(** The batch ends the answer once: its last message is terminal and no
    other is. *)
Definition ends_once (acts : list action) : Prop :=
  exists pre t, acts = pre ++ [t] /\ is_terminal t = true /\
    Forall (fun a => is_terminal a = false) pre.

(* ------------------------------------------------------------------ *)
(** ** [EvalOr], [EvalAnd], [EvalDefine], [eval_define], [eval_fact] and
    the built-in wrappers *)

Section Records.
Context `{Target}.

(** [engine._fix_context] and [engine._create_context] of
    [problog.engine]. *)
Variable fix_context : context -> context.
Variable create_context : context -> context.
(** [target.addAnd((a, b))] and [target.addAtom(identifier, probability)]. *)
Variable t_addAnd : tstate -> gnode -> gnode -> tstate * gnode.
Variable prob : Type.
Variable t_addAtom : tstate -> Z -> prob -> tstate * gnode.
(** [unify(a, b)] succeeds. *)
Variable unify : term -> term -> bool.

(** [EvalOr.complete(source)]: the target, the result set, the counter,
    the cleanup flag and the actions. *)
Definition or_complete (t : tstate) (b : evalnode) (rs : ResultSet) (tc : Z)
  : res (tstate * ResultSet * Z * bool * list action) :=
  let tc' := tc - 1 in
  if tc' =? 0 then
    trs <-? or_flushBuffer t rs false ;;
    let '(t1, rs1) := trs in
    acts <-? (if en_on_cycle b then Ok [] else notify_all b (rs_results rs1)) ;;
    Ok (t1, rs1, tc', true, acts ++ notifyComplete b None)
  else Ok (t, rs, tc', false, []).

(** [EvalOr.newResult(result, node, source, is_last)]. *)
Definition or_newResult (t : tstate) (b : evalnode) (rs : ResultSet) (tc : Z)
    (result : context) (node : gnode) (is_last : bool)
  : res (tstate * ResultSet * Z * bool * list action) :=
  if en_on_cycle b then
    let r := fix_context result in
    if negb (rs_collapsed rs) then Err AssertionError
    else
      match rs_get rs r with
      | Some v =>
          res_node <-? entry_node v ;;
          Ok (t_addDisjunct t res_node node, rs, tc, false, [])
      | None =>
          let '(t1, result_node) := t_addOr t [node] false in
          rs1 <-? rs_set rs r result_node ;;
          let acts := notifyResult b r result_node false None in
          if is_last then
            x <-? or_complete t1 b rs1 tc ;;
            let '(t2, rs2, tc2, a, act) := x in
            Ok (t2, rs2, tc2, a, acts ++ act)
          else Ok (t1, rs1, tc, false, acts)
      end
  else
    if rs_collapsed rs then Err AssertionError
    else
      let r := fix_context result in
      rs1 <-? rs_set rs r node ;;
      if is_last then or_complete t b rs1 tc
      else Ok (t, rs1, tc, false, []).

(** [EvalAnd.complete(source)]: the counter, the cleanup flag, the
    actions. *)
Definition and_complete (b : evalnode) (tc : Z) : res (Z * bool * list action) :=
  let tc' := tc - 1 in
  if tc' =? 0 then Ok (tc', true, notifyComplete b None)
  else if 0 <? tc' then Ok (tc', false, []) else Err AssertionError.

(** [self.createCall(self.node.children[1], context=result,
    identifier=node)]. *)
Definition and_second_call (b : evalnode) (children : list Z)
    (result : context) (node : gnode) : res action :=
  match children !! 1%nat with
  | None => Err IndexError
  | Some c1 =>
      Ok (ACall c1 {| kw_parent := Some (en_pointer b); kw_identifier := node;
                      kw_context := result; kw_transform := None;
                      kw_call_origin := None |})
  end.

(** [EvalAnd.newResult(result, node, source, is_last)]: a result of the
    first conjunct has no [source]. *)
Definition and_newResult (t : tstate) (b : evalnode) (children : list Z)
    (tc : Z) (result : context) (node : gnode) (source : ident)
    (is_last : bool) : res (tstate * Z * bool * list action) :=
  match source with
  | None =>
      let tc1 := tc + 1 in
      if is_last then
        x <-? and_complete b tc1 ;;
        let '(tc2, _, _) := x in
        a <-? and_second_call b children result node ;;
        Ok (t, tc2, false, [a])
      else
        a <-? and_second_call b children result node ;;
        Ok (t, tc1, false, [a])
  | Some _ =>
      let '(t1, target_node) := t_addAnd t source node in
      x <-? (if is_last then and_complete b tc else Ok (tc, false, [])) ;;
      let '(tc1, all_complete, _) := x in
      if all_complete
      then Ok (t1, tc1, true, notifyResult b result target_node true None)
      else Ok (t1, tc1, false, notifyResult b result target_node false None)
  end.

(** The loop of [EvalDefine.complete]: [n -= 1] and
    [notifyResult(result, node, is_last=(n==0))]. *)
Fixpoint notify_countdown (b : evalnode) (n : nat) (l : list (context * rsval))
  : res (list action) :=
  match l with
  | [] => Ok []
  | (r, v) :: l' =>
      node <-? entry_node v ;;
      rest <-? notify_countdown b (n - 1) l' ;;
      Ok (notifyResult b r node (Nat.eqb (n - 1) 0) None ++ rest)
  end.

Definition with_cache (e : engine) (c : DefineCache) : engine :=
  {| e_stack := e_stack e; e_pointer := e_pointer e;
     e_stack_size := e_stack_size e; e_cycle_root := e_cycle_root e;
     e_target := e_target e; e_cache := c;
     e_label_all := e_label_all e; e_unknown := e_unknown e |}.

Definition with_to_complete (d : define_fields) (tc : Z) : define_fields :=
  {| d_functor := d_functor d; d_results := d_results d;
     d_cycle_children := d_cycle_children d; d_cycle_close := d_cycle_close d;
     d_is_cycle_root := d_is_cycle_root d; d_is_cycle_child := d_is_cycle_child d;
     d_is_cycle_parent := d_is_cycle_parent d; d_to_complete := tc;
     d_is_ground := d_is_ground d |}.

Definition with_results (d : define_fields) (rs : ResultSet) : define_fields :=
  {| d_functor := d_functor d; d_results := rs;
     d_cycle_children := d_cycle_children d; d_cycle_close := d_cycle_close d;
     d_is_cycle_root := d_is_cycle_root d; d_is_cycle_child := d_is_cycle_child d;
     d_is_cycle_parent := d_is_cycle_parent d; d_to_complete := d_to_complete d;
     d_is_ground := d_is_ground d |}.

(** [EvalDefine.complete(source)]: the engine (target and cache), the
    record's fields, the cleanup flag and the actions. The cache key is
    [self.call], the functor and the call's context. *)
Definition define_complete (e : engine) (b : evalnode) (d : define_fields)
  : res (engine * define_fields * bool * list action) :=
  if d_is_cycle_child d then Ok (e, d, true, notifyComplete b None)
  else
    let tc := d_to_complete d - 1 in
    let d1 := with_to_complete d tc in
    if tc =? 0 then
      let cache_key := (d_functor d, en_context b) in
      trs <-? define_flushBuffer e (d_functor d) (d_results d) false ;;
      let '(t1, rs1) := trs in
      c2 <-? deactivate (dc_setitem (e_cache e) cache_key rs1) cache_key ;;
      acts <-? (if en_on_cycle b then Ok (notifyComplete b None)
                else match rs_results rs1 with
                     | [] => Ok (notifyComplete b None)
                     | l => notify_countdown b (length l) l
                     end) ;;
      Ok (with_cache (with_target e t1) c2, with_results d1 rs1, true, acts)
    else Ok (e, d1, false, []).

(** The loop of [eval_define] over the cached [results] of the goal. *)
Fixpoint define_cached_loop (parent : option nat) (identifier : ident)
    (transform : option Transformations) (n : nat)
    (l : list (context * rsval)) : res (list action) :=
  match l with
  | [] => Ok []
  | (result, v) :: l' =>
      let n' := (n - 1)%nat in
      target_node <-? entry_node v ;;
      let acts :=
        if bool_decide (target_node <> NODE_FALSE) then
          match apply_transform transform result with
          | None => if Nat.eqb n' 0 then [AComplete parent identifier] else []
          | Some r => [AResult parent (Some r) target_node identifier (Nat.eqb n' 0)]
          end
        else if Nat.eqb n' 0 then [AComplete parent identifier] else [] in
      rest <-? define_cached_loop parent identifier transform n' l' ;;
      Ok (acts ++ rest)
  end.

(** [eval_define] when [target._cache.get(goal)] gives [results]. *)
Definition eval_define_cached (parent : option nat) (identifier : ident)
    (transform : option Transformations) (results : list (context * rsval))
  : res (list action) :=
  match results with
  | [] => Ok [AComplete parent identifier]
  | _ :: _ => define_cached_loop parent identifier transform (length results) results
  end.

(** [eval_fact]: the arguments are unified pairwise ([zip] stops at the
    shorter list); the atom is added on success. *)
Definition eval_fact (t : tstate) (parent : option nat) (node_id : Z)
    (args : list term) (probability : prob) (ctx : context) (identifier : ident)
  : tstate * list action :=
  if forallb (fun ab => unify ab.1 ab.2) (zip args ctx) then
    let '(t1, target_node) := t_addAtom t node_id probability in
    if bool_decide (target_node <> NODE_FALSE)
    then (t1, [AResult parent (Some (create_context args)) target_node identifier true])
    else (t1, [AComplete parent identifier])
  else (t, [AComplete parent identifier]).

(** [BooleanBuiltIn.__call__]: [ok] is the outcome of the check. *)
Definition boolean_builtin (b : evalnode) (args : context) (ok : bool)
  : bool * list action :=
  if ok then (true, notifyResult b (create_context args) NODE_TRUE true None)
  else (true, notifyComplete b None).

(** [SimpleBuiltIn.__call__] on the list the base function returns. *)
Definition simple_builtin (b : evalnode) (results : list context)
  : bool * list action :=
  match results with
  | [] => (true, notifyComplete b None)
  | _ :: _ =>
      (true, List.concat (imap (fun i r =>
         notifyResult b (create_context r) NODE_TRUE
           (Nat.eqb i (length results - 1)) None) results))
  end.

(** [SimpleProbabilisticBuiltIn.__call__]. *)
Definition simple_prob_builtin (b : evalnode) (results : list (context * gnode))
  : bool * list action :=
  match results with
  | [] => (true, notifyComplete b None)
  | _ :: _ =>
      (true, List.concat (imap (fun i rn =>
         notifyResult b (create_context rn.1) rn.2
           (Nat.eqb i (length results - 1)) None) results))
  end.

(** [term.args] and [term.withArgs( *args)] of a callable term. *)
Definition term_args (t : term) : list term :=
  match t with App _ a => a | _ => [] end.

Definition with_args (t : term) (args : list term) : res term :=
  match t with
  | Cst f | App f _ => Ok (match args with [] => Cst f | _ :: _ => App f args end)
  | _ => Err TypeError
  end.

(** The loop of [builtin_call] over the solutions of the sub-call: the
    first [n] arguments go back into the called term. *)
Fixpoint call_results_notify (b : evalnode) (n : nat) (t : term)
    (results : list (option context * gnode)) : res (list action) :=
  match results with
  | [] => Ok []
  | (None, _) :: _ => Err TypeError
  | (Some r, node) :: l =>
      t1 <-? with_args t (firstn n r) ;;
      rest <-? call_results_notify b n t l ;;
      Ok (notifyResult b (create_context (t1 :: skipn n r)) node false None ++ rest)
  end.

(** [builtin_call] after [engine.call(term_call, subcall=True)] returned
    [results]. *)
Definition builtin_call_notify (b : evalnode) (t : term)
    (results : list (option context * gnode)) : res (bool * list action) :=
  acts <-? call_results_notify b (length (term_args t)) t results ;;
  Ok (true, acts ++ notifyComplete b None).

End Records.

(* ------------------------------------------------------------------ *)
(** ** Example inputs of the properties below *)

(** A call [p(X)] of a non-ground context whose definition has found one
    result, [p(a)], from ground node 7; its last [complete] is next. *)
Definition ex_open_base : evalnode :=
  {| en_node_id := 20; en_location := 3; en_context := [Var 0];
     en_parent := Some 3%nat; en_identifier := None; en_pointer := 0;
     en_transform := None; en_on_cycle := false |}.

Definition ex_open_results : ResultSet :=
  {| rs_results := [([Cst "a"], Nodes [Some 7])]; rs_collapsed := false |}.

Definition ex_open_fields : define_fields :=
  {| d_functor := "p"; d_results := ex_open_results; d_cycle_children := [];
     d_cycle_close := ∅; d_is_cycle_root := false;
     d_is_cycle_child := false; d_is_cycle_parent := false;
     d_to_complete := 1; d_is_ground := false |}.

Definition ex_open_engine (active : bool) : @engine ExTarget :=
  @Build_engine ExTarget
    (Some (EvalDefine ex_open_base ex_open_fields) :: replicate 127 None) 1 128
    None (100 : Z)
    (if active then activate DefineCache_new ("p"%string, [Var 0]) 0%nat
     else DefineCache_new) false UNKNOWN_ERROR.

Definition ex_nd_key : key := ("p"%string, [Cst "a"]).

(** The table [NestedDict] builds for [{p(a): 1}]. *)
Definition ex_nd_base : ndbase Z := [(("p"%string, 1%nat), NDDict [(Cst "a", NDLeaf 1)])].

(** A record to push, and a three-slot arena holding one record. *)
Definition ex_record : record := EvalNot (ex_base 1 None None) [].

Definition ex_small_engine : @engine ExTarget :=
  @Build_engine ExTarget [Some (EvalNot (ex_base 0 None None) []); None; None] 1 3
    None (100 : Z) DefineCache_new false UNKNOWN_ERROR.

Definition ex_collapsed_results : ResultSet :=
  {| rs_results := [([Cst "a"], One (Some 7))]; rs_collapsed := true |}.

Definition ex_addAnd (t : Z) (a b : gnode) : Z * gnode := (t + 1, Some (t + 1)).


(* ================================================================== *)
(** * Properties *)

Lemma term_eqb_refl (t : term) : term_eqb t t = true.
Proof.
  revert t. fix IH 1. intros [i|c|z|f args]; simpl.
  - apply Nat.eqb_refl.
  - apply String.eqb_refl.
  - apply Z.eqb_refl.
  - rewrite String.eqb_refl. simpl.
    revert args. fix IH2 1. intros [|a args]; [reflexivity|].
    rewrite IH. simpl. apply IH2.
Qed.

Lemma terms_eqb_refl (l : list term) : terms_eqb l l = true.
Proof. induction l as [|a l IHl]; simpl; [done|]. by rewrite term_eqb_refl, IHl. Qed.

Lemma key_eqb_functor_neq (f g : string) (x y : list term) :
  f <> g -> key_eqb (f, x) (g, y) = false.
Proof.
  intros Hne. unfold key_eqb; simpl.
  destruct (String.eqb_spec f g) as [->|_]; [congruence|done].
Qed.

Lemma is_dont_cache_functor (f : string) (x y : list term) :
  is_dont_cache (f, x) = is_dont_cache (f, y).
Proof. reflexivity. Qed.

Lemma store_ground_other (g0 : NestedDict rsval) (g f : string) (rs : ResultSet)
    (ks : list context) (y : list term) :
  g <> f -> store_ground g0 g rs ks (f, y) = g0 (f, y).
Proof.
  intros Hne. revert g0. induction ks as [|k ks IH]; intros g0; simpl; [done|].
  rewrite IH. destruct (rs_get rs k); [|done].
  unfold nd_set. by rewrite key_eqb_functor_neq.
Qed.

(** A write of a goal with another functor leaves every lookup of
    functor [f] as it was. *)
Lemma dc_setitem_other_functor (c : DefineCache) (g f : string)
    (a y : list term) (rs : ResultSet) :
  g <> f ->
  dc_ground (dc_setitem c (g, a) rs) (f, y) = dc_ground c (f, y) /\
  dc_non_ground (dc_setitem c (g, a) rs) (f, y) = dc_non_ground c (f, y).
Proof.
  intros Hne. unfold dc_setitem.
  destruct (is_dont_cache (g, a)); [done|].
  destruct (is_ground a); simpl.
  - destruct (rs_keys rs) as [|k ks]; simpl.
    + unfold nd_set. by rewrite key_eqb_functor_neq.
    + destruct (rs_get rs k); simpl; [|done].
      unfold nd_set. by rewrite key_eqb_functor_neq.
  - split.
    + by apply store_ground_other.
    + unfold nd_set. by rewrite key_eqb_functor_neq.
Qed.

(** C5 *)
(** Claim C5: a chain built by [addFunction] of f1, f2 and f3, in that
    order, maps [r] to f1(f2(f3(r))), the functions running in reverse
    order of addition; a [None] from any step makes the whole result
    [None] and the remaining functions are not consulted. *)
Theorem transform_chain_reverse_order (f1 f2 f3 : tfun) (r : context) :
  Transformations_call
    (addFunction (addFunction (addFunction Transformations_new f1) f2) f3) r
  = match f3 r with
    | None => None
    | Some r3 => match f2 r3 with None => None | Some r2 => f1 r2 end
    end
  /\ ((f3 r = None \/ (exists r3, f3 r = Some r3 /\ f2 r3 = None)
       \/ (exists r3 r2, f3 r = Some r3 /\ f2 r3 = Some r2 /\ f1 r2 = None)) ->
      Transformations_call
        (addFunction (addFunction (addFunction Transformations_new f1) f2) f3) r
      = None).
Proof.
  assert (Hc : Transformations_call
    (addFunction (addFunction (addFunction Transformations_new f1) f2) f3) r
  = match f3 r with
    | None => None
    | Some r3 => match f2 r3 with None => None | Some r2 => f1 r2 end
    end).
  { unfold Transformations_call; simpl.
    destruct (f3 r) as [r3|]; simpl; [|done].
    destruct (f2 r3) as [r2|]; simpl; [|done].
    by destruct (f1 r2). }
  split; [exact Hc|].
  rewrite Hc. intros [H3|[[r3 [H3 H2]]|[r3 [r2 [H3 [H2 H1]]]]]].
  - by rewrite H3.
  - by rewrite H3, H2.
  - by rewrite H3, H2, H1.
Qed.

(** C6 *)
(** Claim C6: when the record's transform drops a result ([None]), a
    last result still yields exactly a [complete] to the record's parent,
    and a non-last result yields no message at all. *)
Theorem notifyResult_dropped_last_completes (b : evalnode) (t : Transformations)
    (arguments : context) (node : gnode) (is_last : bool) (parent : option nat) :
  en_transform b = Some t ->
  Transformations_call t arguments = None ->
  notifyResult b arguments node is_last parent
  = if is_last then [AComplete (en_parent b) (en_identifier b)] else [].
Proof.
  intros Ht Hnone. unfold notifyResult. rewrite Ht, Hnone.
  by destruct is_last.
Qed.

Lemma notifyResult_dropped_last_completes_witness :
  notifyResult (ex_base 4 (Some 2%nat) (Some ex_drop)) [Cst "a"] (Some 7) true None
  = [AComplete (Some 2%nat) None].
Proof.
  exact (notifyResult_dropped_last_completes (ex_base 4 (Some 2%nat) (Some ex_drop))
           ex_drop [Cst "a"] (Some 7) true None eq_refl eq_refl).
Defined.

(** C7 *)
(** Claim C7: writing the results of a goal whose functor begins with
    [_nocache_] leaves the cache as it was, and whatever goals are written
    afterwards, a lookup of a [_nocache_] goal finds what it found before
    (so nothing, in a cache that started without it). *)
Theorem nocache_goal_never_cached (c : DefineCache) (goal : key)
    (results : ResultSet) (writes : list (key * ResultSet)) :
  is_dont_cache goal = true ->
  dc_setitem c goal results = c /\
  dc_get (fold_left (fun c w => dc_setitem c w.1 w.2) writes c) goal
  = dc_get c goal.
Proof.
  intros Hnc. split.
  - unfold dc_setitem. by rewrite Hnc.
  - destruct goal as [f y].
    assert (Hstep : forall c' g a rs,
      dc_get (dc_setitem c' (g, a) rs) (f, y) = dc_get c' (f, y)).
    { intros c' g a rs.
      destruct (String.eqb_spec g f) as [->|Hne].
      - unfold dc_setitem.
        by rewrite (is_dont_cache_functor f a y), Hnc.
      - destruct (dc_setitem_other_functor c' g f a y rs Hne) as [Hg Hn].
        unfold dc_get, dc_getitem.
        destruct (is_ground y); [by rewrite Hg|by rewrite Hn]. }
    revert c. induction writes as [|[[g a] rs] ws IH]; intros c; simpl; [done|].
    rewrite IH. apply Hstep.
Qed.

Lemma nocache_goal_never_cached_witness :
  dc_setitem DefineCache_new ("_nocache_p", [Cst "a"])
    {| rs_results := [([Cst "a"], One (Some 5))]; rs_collapsed := true |}
  = DefineCache_new /\
  dc_get (fold_left (fun c w => dc_setitem c w.1 w.2)
            [(("_nocache_p", [Cst "a"]),
              {| rs_results := [([Cst "a"], One (Some 5))]; rs_collapsed := true |})]
            DefineCache_new) ("_nocache_p", [Cst "a"])
  = dc_get DefineCache_new ("_nocache_p", [Cst "a"]).
Proof.
  apply nocache_goal_never_cached. reflexivity.
Defined.

(** C9 *)
(** Claim C9 (amended): a goal whose functor begins with [_nocache_]
    leaves the cache exactly as it was. For any other goal with ground
    arguments and a non-empty result set, the write stores exactly one
    row, the first result keyed by [(functor, result)], leaves the
    non-ground and active tables alone, and every other result tuple
    looks up what it looked up before. *)
Theorem ground_write_first_result_only (c : DefineCache) (functor : string)
    (args : list term) (results : ResultSet) :
  (is_dont_cache (functor, args) = true ->
     dc_setitem c (functor, args) results = c) /\
  (forall (r1 : context) (v1 : rsval) (rest : list (context * rsval)),
     is_dont_cache (functor, args) = false ->
     is_ground args = true ->
     rs_results results = (r1, v1) :: rest ->
     dc_ground (dc_setitem c (functor, args) results)
       = nd_set (dc_ground c) (functor, r1) v1 /\
     dc_non_ground (dc_setitem c (functor, args) results) = dc_non_ground c /\
     dc_active (dc_setitem c (functor, args) results) = dc_active c /\
     (forall r2, terms_eqb r1 r2 = false ->
        dc_get (dc_setitem c (functor, args) results) (functor, r2)
        = dc_get c (functor, r2))).
Proof.
  split.
  { intros Hnc. unfold dc_setitem. by rewrite Hnc. }
  intros r1 v1 rest Hnc Hg Hres.
  assert (Hg' : dc_ground (dc_setitem c (functor, args) results)
                = nd_set (dc_ground c) (functor, r1) v1).
  { unfold dc_setitem. rewrite Hnc, Hg. unfold rs_keys. rewrite Hres. simpl.
    unfold rs_get. rewrite Hres. simpl. by rewrite terms_eqb_refl. }
  assert (Hn : dc_non_ground (dc_setitem c (functor, args) results)
               = dc_non_ground c).
  { unfold dc_setitem. rewrite Hnc, Hg. unfold rs_keys. rewrite Hres. simpl.
    by destruct (rs_get results r1). }
  split; [exact Hg'|]. split; [exact Hn|]. split.
  - unfold dc_setitem. rewrite Hnc, Hg. unfold rs_keys. rewrite Hres. simpl.
    by destruct (rs_get results r1).
  - intros r2 Hne. unfold dc_get, dc_getitem.
    destruct (is_ground r2).
    + rewrite Hg'. unfold nd_set, key_eqb. simpl.
      by rewrite String.eqb_refl, Hne.
    + by rewrite Hn.
Qed.

(** Both cases at a result set with two ground results: under
    [_nocache_p] nothing is stored, under [p] only [p(a)]. *)
Lemma ground_write_first_result_only_witness :
  let rs := {| rs_results := [([Cst "a"], One (Some 5)); ([Cst "b"], One (Some 6))];
               rs_collapsed := true |} in
  dc_setitem DefineCache_new ("_nocache_p", [Cst "a"]) rs = DefineCache_new /\
  dc_ground (dc_setitem DefineCache_new ("p", [Cst "a"]) rs)
    = nd_set (dc_ground DefineCache_new) ("p", [Cst "a"]) (One (Some 5)) /\
  dc_non_ground (dc_setitem DefineCache_new ("p", [Cst "a"]) rs)
    = dc_non_ground DefineCache_new /\
  dc_active (dc_setitem DefineCache_new ("p", [Cst "a"]) rs)
    = dc_active DefineCache_new /\
  (forall r2, terms_eqb [Cst "a"] r2 = false ->
     dc_get (dc_setitem DefineCache_new ("p", [Cst "a"]) rs) ("p", r2)
     = dc_get DefineCache_new ("p", r2)).
Proof.
  intros rs. split.
  - exact (proj1 (ground_write_first_result_only DefineCache_new "_nocache_p"
                    [Cst "a"] rs) eq_refl).
  - exact (proj2 (ground_write_first_result_only DefineCache_new "p" [Cst "a"] rs)
             [Cst "a"] (One (Some 5)) [([Cst "b"], One (Some 6))]
             eq_refl eq_refl eq_refl).
Defined.

(** Claim C9, as stated, fails for a [_nocache_] goal: a ground goal with
    a non-empty result set stores no row at all. *)
Lemma ground_write_nocache_stores_nothing :
  dc_ground
    (dc_setitem DefineCache_new ("_nocache_p", [Cst "a"])
       {| rs_results := [([Cst "a"], One (Some 5))]; rs_collapsed := true |})
    ("_nocache_p", [Cst "a"]) = None.
Proof. reflexivity. Qed.

Lemma filter_nodup_count (cc : nat) (l : list nat) :
  NoDup l -> cc ∈ l -> length (List.filter (fun c => Nat.eqb c cc) l) = 1%nat.
Proof.
  induction l as [|x l IH]; intros Hnd Hin; [set_solver|].
  apply NoDup_cons in Hnd as [Hx Hnd]. simpl.
  destruct (Nat.eqb_spec x cc) as [->|Hne]; simpl.
  - f_equal. clear -Hx. induction l as [|y l IH2]; simpl; [done|].
    destruct (Nat.eqb_spec y cc) as [->|_]; [set_solver|].
    apply IH2. set_solver.
  - apply IH; [done|]. set_solver.
Qed.

Lemma filter_map_complete (cc : nat) (i : ident) (l : list nat) :
  length (List.filter (is_complete_to cc) (map (fun c => AComplete (Some c) i) l))
  = length (List.filter (fun c => Nat.eqb c cc) l).
Proof.
  induction l as [|x l IH]; [done|]. cbn [map List.filter is_complete_to].
  destruct (Nat.eqb x cc); cbn [length]; congruence.
Qed.

Section Proofs.
Context `{T : Target}.
Variable lineno : Z -> lineinfo.
Variable getNode : Z -> option dbnode.
Variable VT : Type.
Variable substitute_call_args : list term -> context -> list term * VT.
Variable unify_call_return : context -> list term -> context -> VT -> option context.
Variable unify : term -> term -> bool.
Variable clone_context : context -> context.
Variable eval_other : engine -> Z -> dbnode -> kwargs -> res (engine * list action).
Variable eval_builtin : engine -> Z -> kwargs -> res (engine * list action).
Variable deliver_other : engine -> nat -> record -> action -> res (engine * bool * list action).

#[local] Abbreviation EVAL := (eval lineno getNode VT substitute_call_args
  unify_call_return unify clone_context eval_other eval_builtin).
#[local] Abbreviation LOOP := (exec_loop lineno getNode VT substitute_call_args
  unify_call_return unify clone_context eval_other eval_builtin deliver_other).
#[local] Abbreviation EXECUTE := (execute lineno getNode VT substitute_call_args
  unify_call_return unify clone_context eval_other eval_builtin deliver_other).

(** A call the driver evaluates (no cycle root older than its parent)
    and whose evaluation raises anything but the internal
    [_UnknownClause] makes the loop raise the same error. *)
Lemma exec_loop_eval_error (f : nat) (sub : bool) (e : engine) (obj : Z)
    (kw : kwargs) (rest : list action) (sols : list (option context * gnode))
    (x : exc) :
  (e_cycle_root e = None \/
   exists r p, e_cycle_root e = Some r /\ kw_parent kw = Some p /\ (r <= p)%nat) ->
  EVAL f e obj kw = Err x ->
  x <> UnknownClause_internal ->
  LOOP (S f) sub e (ACall obj kw :: rest) sols = Err x.
Proof.
  intros Hnc Hev Hx. simpl.
  destruct Hnc as [Hn|[r [p [Hr [Hp Hle]]]]].
  - rewrite Hn, Hev. destruct x; try reflexivity. congruence.
  - rewrite Hr, Hp.
    replace (p <? r)%nat with false by (symmetry; apply Nat.ltb_ge; lia).
    rewrite Hev. destruct x; try reflexivity. congruence.
Qed.

(** C1 *)
(** Claim C1 (amended): [closeCycle(True)] on the Define record that is
    the cycle root unsets the engine's cycle root and emits exactly one
    [complete], with the root's identifier, to each pointer of its
    [cycle_close] set and nothing else; it leaves the arena as it is, so
    the root stays and its [cycle_close] set is not cleared. When a call
    is older than the root, the driver runs these completes first and
    then the call again, without cleaning up any record. *)
Theorem closeCycle_root_completes_cycle_close (e : engine) (b : evalnode)
    (d : define_fields) :
  d_is_cycle_root d = true ->
  e_cycle_root (closeCycle e b d true).1 = None /\
  e_stack (closeCycle e b d true).1 = e_stack e /\
  e_pointer (closeCycle e b d true).1 = e_pointer e /\
  (forall a, In a (closeCycle e b d true).2 ->
     exists cc, cc ∈ d_cycle_close d /\ a = AComplete (Some cc) (en_identifier b)) /\
  (forall cc, cc ∈ d_cycle_close d ->
     length (List.filter (is_complete_to cc) (closeCycle e b d true).2) = 1%nat) /\
  (forall f sub obj kw rest sols r p,
     e_cycle_root e = Some r ->
     e_stack e !! r = Some (Some (EvalDefine b d)) ->
     kw_parent kw = Some p -> (p < r)%nat ->
     LOOP (S f) sub e (ACall obj kw :: rest) sols
     = LOOP f sub (closeCycle e b d true).1
         ((closeCycle e b d true).2 ++ ACall obj kw :: rest) sols).
Proof.
  intros Hroot.
  assert (Hacts : (closeCycle e b d true).2
    = map (fun cc => AComplete (Some cc) (en_identifier b)) (elements (d_cycle_close d))).
  { unfold closeCycle. rewrite Hroot. simpl.
    induction (elements (d_cycle_close d)) as [|x l IH]; simpl; [done|].
    by rewrite IH. }
  split; [unfold closeCycle; by rewrite Hroot|].
  split; [unfold closeCycle; by rewrite Hroot|].
  split; [unfold closeCycle; by rewrite Hroot|].
  split.
  - intros a Ha. rewrite Hacts in Ha. apply in_map_iff in Ha as [cc [<- Hin]].
    exists cc. split; [|done]. apply elem_of_elements. by apply list_elem_of_In.
  - split.
    + intros cc Hcc. rewrite Hacts.
      assert (Hin : cc ∈ elements (d_cycle_close d)) by set_solver.
      rewrite <- (filter_nodup_count cc (elements (d_cycle_close d))
                    (NoDup_elements _) Hin).
      apply filter_map_complete.
    + intros f sub obj kw rest sols r p Hr Hslot Hp Hlt. simpl.
      rewrite Hr, Hp.
      replace (p <? r)%nat with true by (symmetry; apply Nat.ltb_lt; lia).
      unfold root_closeCycle. rewrite Hr, Hslot. simpl.
      destruct (closeCycle e b d true) as [e1 cl]. simpl.
      destruct rest; [destruct cl|]; simpl; rewrite <- ?app_assoc; reflexivity.
Qed.

(** C2 *)
(** Claim C2: a Not record on a cycle-propagation walk is fatal. Its
    [createCycle] raises [NegativeCycle] with the Not's location; the
    [notifyCycle] walk raises it as soon as it reaches an off-cycle Not
    below the root; the [checkCycle] walk raises it after any chain of
    off-cycle records that are not Nots; and the driver loop propagates
    the error out of [execute] with no other evaluation. *)
Theorem negative_cycle_on_walks :
  (forall (e : engine) (b : evalnode) (nodes : list gnode),
     createCycle lineno e (EvalNot b nodes) = Err (NegativeCycle (lineno (en_location b)))) /\
  (forall fuel (e : engine) root loc c acc b nodes,
     c <> root ->
     e_stack e !! c = Some (Some (EvalNot b nodes)) ->
     en_on_cycle b = false ->
     notify_walk lineno (S fuel) e root loc (Some c) acc
     = Err (NegativeCycle (lineno (en_location b)))) /\
  (forall fuel (e : engine) parent cur n k b nodes,
     check_path e parent cur n k ->
     n <> parent ->
     e_stack e !! n = Some (Some (EvalNot b nodes)) ->
     en_on_cycle b = false ->
     (k < fuel)%nat ->
     checkCycle lineno fuel e cur parent = Err (NegativeCycle (lineno (en_location b)))) /\
  (forall f sub (e : engine) obj kw rest sols l,
     (e_cycle_root e = None \/
      exists r p, e_cycle_root e = Some r /\ kw_parent kw = Some p /\ (r <= p)%nat) ->
     EVAL f e obj kw = Err (NegativeCycle l) ->
     LOOP (S f) sub e (ACall obj kw :: rest) sols = Err (NegativeCycle l)).
Proof.
  split; [done|]. split.
  { intros fuel e root loc c acc b nodes Hne Hslot Hoff. simpl.
    rewrite bool_decide_false by congruence. rewrite Hslot.
    unfold rec_on_cycle; simpl. by rewrite Hoff. }
  split.
  { intros fuel e parent cur n k b nodes Hpath. revert fuel.
    induction Hpath as [n|p r n k Hp Hslot Hoff Hnot Hpath IH];
      intros fuel Hn Hnslot Hboff Hk; destruct fuel as [|fuel]; try lia; simpl.
    - rewrite bool_decide_false by congruence. rewrite Hnslot.
      unfold rec_on_cycle; simpl. by rewrite Hboff.
    - rewrite bool_decide_false by congruence. rewrite Hslot, Hoff, Hnot.
      apply IH; auto; lia. }
  intros. apply exec_loop_eval_error; auto; discriminate.
Qed.

(** A call whose definition node is absent: [eval_call] delegates to
    [eval], which completes at once under [UNKNOWN_FAIL] and otherwise
    raises the internal [_UnknownClause], turned by [eval_call] into
    [UnknownClause] with the call's signature and location. *)
Lemma eval_call_absent (fuel : nat) (e : engine) (n defnode loc : Z)
    (f : string) (args : list term) (kw : kwargs) :
  0 <= n -> 0 <= defnode ->
  getNode n = Some (NCall f args defnode loc) ->
  getNode defnode = None ->
  EVAL (S (S fuel)) e n kw
  = if e_unknown e =? UNKNOWN_FAIL
    then Ok (e, [AComplete (kw_parent kw) (kw_identifier kw)])
    else Err (UnknownClause (f ++ "/" ++ pretty (length args))%string (lineno loc)).
Proof.
  intros Hn Hd Hg Hd0. cbn [eval].
  rewrite (proj2 (Z.ltb_ge n 0) Hn), Hg.
  destruct (substitute_call_args args (kw_context kw)) as [ca vt].
  rewrite (proj2 (Z.eqb_neq defnode (-5)) ltac:(lia)),
          (proj2 (Z.eqb_neq defnode (-1)) ltac:(lia)),
          (proj2 (Z.eqb_neq defnode (-2)) ltac:(lia)),
          (proj2 (Z.eqb_neq defnode (-3)) ltac:(lia)).
  cbn [orb].
  rewrite (proj2 (Z.ltb_ge defnode 0) Hd), Hd0.
  cbn [kw_parent kw_identifier].
  by destruct (e_unknown e =? UNKNOWN_FAIL).
Qed.

(** C3 *)
(** Claim C3: for a call whose definition node is absent from the
    database, under [UNKNOWN_ERROR] the evaluation raises [UnknownClause]
    with the signature [functor/arity] and the call's location, in
    [eval], in the driver loop and out of [execute]; under
    [UNKNOWN_FAIL] it yields exactly one [complete] to the calling record
    and nothing else, so that a top-level [execute] of it returns no
    solution. *)
Theorem unknown_definition_policy (fuel : nat) (e : engine) (n defnode loc : Z)
    (f : string) (args : list term) (kw : kwargs) :
  0 <= n -> 0 <= defnode ->
  getNode n = Some (NCall f args defnode loc) ->
  getNode defnode = None ->
  (e_unknown e = UNKNOWN_ERROR ->
     EVAL (S (S fuel)) e n kw
       = Err (UnknownClause (f ++ "/" ++ pretty (length args))%string (lineno loc)) /\
     (forall sub rest sols,
        (e_cycle_root e = None \/
         exists r p, e_cycle_root e = Some r /\ kw_parent kw = Some p /\ (r <= p)%nat) ->
        LOOP (S (S (S fuel))) sub e (ACall n kw :: rest) sols
        = Err (UnknownClause (f ++ "/" ++ pretty (length args))%string (lineno loc))) /\
     (forall sub,
        EXECUTE (S (S fuel)) sub e n kw
        = Err (UnknownClause (f ++ "/" ++ pretty (length args))%string (lineno loc)))) /\
  (e_unknown e = UNKNOWN_FAIL ->
     EVAL (S (S fuel)) e n kw = Ok (e, [AComplete (kw_parent kw) (kw_identifier kw)]) /\
     (forall sub, EXECUTE (S (S fuel)) sub e n kw = Ok ([], e))).
Proof.
  intros Hn Hd Hg Hd0.
  pose proof (fun kw' => eval_call_absent fuel e n defnode loc f args kw' Hn Hd Hg Hd0)
    as Hev.
  split.
  - intros Hu.
    assert (Hev' : forall kw', EVAL (S (S fuel)) e n kw'
      = Err (UnknownClause (f ++ "/" ++ pretty (length args))%string (lineno loc)))
      by (intros kw'; by rewrite Hev, Hu).
    clear Hev. rename Hev' into Hev.
    split; [apply Hev|]. split.
    + intros sub rest sols Hnc.
      apply exec_loop_eval_error; [exact Hnc|apply Hev|discriminate].
    + intros sub. unfold execute. by rewrite Hev.
  - intros Hu.
    assert (Hev' : forall kw', EVAL (S (S fuel)) e n kw'
      = Ok (e, [AComplete (kw_parent kw') (kw_identifier kw')]))
      by (intros kw'; by rewrite Hev, Hu).
    clear Hev. rename Hev' into Hev.
    split; [apply Hev|].
    intros sub. unfold execute. rewrite Hev. reflexivity.
Qed.

(** C4 *)
(** Claim C4 (amended): a Not record adds each result's node to [nodes]
    unless it is [NODE_FALSE] (a node already there is not added twice);
    a result that is not the last forwards nothing, the last one makes the
    record complete with the updated set. On completion, with [nodes]
    empty it forwards [NODE_TRUE] as a result that is NOT marked last and
    then a [complete]; otherwise it asks [addOr(nodes)], then [addNot]
    of that node, forwards the resulting node as a result not marked last
    unless it is [NODE_FALSE], and then sends a [complete]. Completion
    always asks for the record to be cleaned up. *)
Theorem not_record_result_and_complete (t : tstate) (b : evalnode)
    (nodes : list gnode) (node : gnode) :
  (not_newResult t b nodes node false).2 = (t, false, []) /\
  (forall is_last,
     nodes ⊆ (not_newResult t b nodes node is_last).1 /\
     (node <> NODE_FALSE -> node ∈ (not_newResult t b nodes node is_last).1) /\
     (node = NODE_FALSE -> (not_newResult t b nodes node is_last).1 = nodes) /\
     (NoDup nodes -> NoDup (not_newResult t b nodes node is_last).1)) /\
  (not_newResult t b nodes node true).2
    = not_complete t b (not_newResult t b nodes node true).1 /\
  not_complete t b []
    = (t, true, notifyResult b (en_context b) NODE_TRUE false None
                ++ [AComplete (en_parent b) (en_identifier b)]) /\
  (forall x xs,
     not_complete t b (x :: xs)
     = (let '(t1, o) := t_addOr t (x :: xs) true in
        let '(t2, or_node) := t_addNot t1 o in
        (t2, true,
         (if bool_decide (or_node = NODE_FALSE) then []
          else notifyResult b (en_context b) or_node false None)
         ++ [AComplete (en_parent b) (en_identifier b)]))) /\
  (en_transform b = None ->
     forall a n, notifyResult b a n false None
                 = [AResult (en_parent b) (Some a) n (en_identifier b) false]).
Proof.
  split; [unfold not_newResult; by repeat case_bool_decide|].
  split.
  { intros is_last. unfold not_newResult.
    assert (Hn : forall l : list gnode, (if is_last then (l, not_complete t b l)
                                         else (l, (t, false, []))).1 = l)
      by (intros; by destruct is_last).
    rewrite Hn.
    case_bool_decide as Hf; [split; [done|]; split; [congruence|done]|].
    case_bool_decide as Hin.
    - split; [done|]. split; [done|]. split; [congruence|done].
    - split; [set_solver|]. split; [set_solver|]. split; [congruence|].
      intros Hnd. apply NoDup_app. split; [done|]. split.
      + intros y Hy Hy'. apply list_elem_of_singleton in Hy'. subst. done.
      + apply NoDup_singleton. }
  split; [done|].
  split; [done|].
  split; [done|].
  intros Ht a n. unfold notifyResult. by rewrite Ht.
Qed.

(** C8 *)
(** Claim C8, what the loop does: when the outermost caller receives its last
    result, a top-level loop raises [InvalidEngineState] if the arena
    pointer is not 0, and otherwise returns with the arena reset to 128
    empty slots and the pointer 0; a sub-call returns the engine as it
    is. When the outermost caller receives a [complete] instead, the loop
    returns the engine as it is, with no check of the pointer and no
    reset of the arena. *)
Theorem execute_outer_caller_return (f : nat) (e : engine)
    (rest : list action) (sols : list (option context * gnode))
    (result : option context) (node : gnode) (i : ident) :
  (e_pointer e <> 0%nat ->
     LOOP (S f) false e (AResult None result node i true :: rest) sols
     = Err (InvalidEngineState "Stack not empty at end of execution!")) /\
  (e_pointer e = 0%nat ->
     exists e', LOOP (S f) false e (AResult None result node i true :: rest) sols
                = Ok (sols ++ [(result, node)], e') /\
       e_pointer e' = 0%nat /\ e_stack e' = replicate 128 None /\
       e_stack_size e' = 128%nat) /\
  LOOP (S f) true e (AResult None result node i true :: rest) sols
    = Ok (sols ++ [(result, node)], e) /\
  (forall sub,
     LOOP (S f) sub e (AComplete None i :: rest) sols = Ok (sols, e)).
Proof.
  split.
  { intros Hp. simpl. apply Nat.eqb_neq in Hp. by rewrite Hp. }
  split.
  { intros Hp. exists (shrink_stack e). simpl. apply Nat.eqb_eq in Hp.
    rewrite Hp. simpl. split; [done|]. split; [|done].
    apply Nat.eqb_eq in Hp. exact Hp. }
  split; [done|].
  intros sub. done.
Qed.

(** C10 *)
(** Claim C10: a disjunction without children yields exactly one
    [complete] to the parent and leaves the engine as it is; one with
    children allocates exactly one record, an Or waiting for as many
    completes as there are children, in the slot at the pointer, bumps
    the pointer, keeps every other slot, and yields one [call] per child,
    in order, each with the new record as parent. The arena is assumed
    well formed: its length is its recorded size and the pointer is
    within it. *)
Theorem disj_eval_messages (f : nat) (e : engine) (n loc : Z)
    (children : list Z) (kw : kwargs) :
  0 <= n -> getNode n = Some (NDisj children loc) ->
  (children = [] -> EVAL (S f) e n kw = Ok (e, [AComplete (kw_parent kw) None])) /\
  (children <> [] ->
   length (e_stack e) = e_stack_size e ->
   (e_pointer e <= e_stack_size e)%nat -> (0 < e_stack_size e)%nat ->
   let b := {| en_node_id := n; en_location := loc;
               en_context := kw_context kw; en_parent := kw_parent kw;
               en_identifier := kw_identifier kw; en_pointer := e_pointer e;
               en_transform := kw_transform kw; en_on_cycle := false |} in
   exists e',
     EVAL (S f) e n kw = Ok (e', map (createCall b) children) /\
     e_pointer e' = S (e_pointer e) /\
     e_stack e' !! e_pointer e
       = Some (Some (EvalOr b ResultSet_new (Z.of_nat (length children)))) /\
     (forall j, j <> e_pointer e -> (j < length (e_stack e))%nat ->
        e_stack e' !! j = e_stack e !! j) /\
     e_cycle_root e' = e_cycle_root e /\ e_target e' = e_target e /\
     e_cache e' = e_cache e /\
     Forall (fun a => exists c k, a = ACall c k /\ kw_parent k = Some (e_pointer e))
       (map (createCall b) children) /\
     length (map (createCall b) children) = length children).
Proof.
  intros Hn Hg. split.
  - intros ->. cbn [eval]. by rewrite (proj2 (Z.ltb_ge n 0) Hn), Hg.
  - intros Hne Hlen Hle Hpos b.
    cbn [eval]. rewrite (proj2 (Z.ltb_ge n 0) Hn), Hg.
    destruct children as [|c cs]; [congruence|].
    assert (Hcalls :
      Forall (fun a => exists c k, a = ACall c k /\ kw_parent k = Some (e_pointer e))
        (map (createCall b) (c :: cs))).
    { apply Forall_forall. intros a Ha. apply list_elem_of_In, in_map_iff in Ha
        as [x [<- _]]. by do 2 eexists. }
    unfold eval_disj, add_record.
    destruct (Nat.leb_spec (e_stack_size e) (e_pointer e)) as [Hge|Hlt].
    + assert (Hp : e_pointer e = e_stack_size e) by lia.
      cbn [e_pointer grow_stack e_stack].
      rewrite (proj2 (Nat.ltb_lt _ _)) by (rewrite length_app, length_replicate; lia).
      eexists. split; [reflexivity|]. cbn.
      split; [done|]. split.
      { apply list_lookup_insert_eq. rewrite length_app, length_replicate. lia. }
      split.
      { intros j Hj Hjl. rewrite list_lookup_insert_ne by done.
        by apply lookup_app_l. }
      split; [done|]. split; [done|]. split; [done|]. split; [done|].
      by rewrite length_map.
    + rewrite (proj2 (Nat.ltb_lt _ _)) by lia.
      eexists. split; [reflexivity|]. cbn.
      split; [done|]. split.
      { apply list_lookup_insert_eq. lia. }
      split.
      { intros j Hj Hjl. by rewrite list_lookup_insert_ne by done. }
      split; [done|]. split; [done|]. split; [done|]. split; [done|].
      by rewrite length_map.
Qed.

End Proofs.

(* ------------------------------------------------------------------ *)
(** ** The properties at concrete inputs *)

(** C1 at the root of [ex_cycle_engine]: the cycle root is unset and
    the only message is the [complete] to slot 1. *)
Lemma closeCycle_root_completes_cycle_close_witness :
  d_is_cycle_root ex_root_fields = true /\
  e_cycle_root (closeCycle ex_cycle_engine (ex_base 0 None None) ex_root_fields true).1
    = None /\
  (closeCycle ex_cycle_engine (ex_base 0 None None) ex_root_fields true).2
    = [AComplete (Some 1%nat) None].
Proof.
  split; [reflexivity|]. split; [|reflexivity].
  exact (proj1 (closeCycle_root_completes_cycle_close (T:=ExTarget) ex_lineno ex_getNode unit ex_substitute_call_args
    ex_unify_call_return term_eqb (fun c => c) ex_eval_other ex_eval_builtin
    ex_deliver_other
    ex_cycle_engine (ex_base 0 None None) ex_root_fields eq_refl)).
Defined.

(** Claim C1, as stated, fails on the clearing of [cycle_close]: after
    the driver's [closeCycle(True)] on the root of [ex_cycle_engine], the
    root record is still in slot 0 with its [cycle_close] set [{1}]. *)
Lemma closeCycle_keeps_cycle_close :
  match @root_closeCycle ExTarget ex_cycle_engine with
  | Ok (e1, acts) =>
      acts = [AComplete (Some 1%nat) None] /\
      e_cycle_root e1 = None /\
      e_stack e1 !! 0%nat
        = Some (Some (EvalDefine (ex_base 0 None None) ex_root_fields)) /\
      d_cycle_close ex_root_fields = {[ 1%nat ]} /\
      d_cycle_close ex_root_fields <> ∅
  | Err _ => False
  end.
Proof.
  split; [reflexivity|]. split; [reflexivity|]. split; [reflexivity|].
  split; [reflexivity|]. cbn. set_solver.
Qed.

(** C2 on [ex_stale_engine]: the walk towards root 5 meets the
    off-cycle Not in slot 0 and raises [NegativeCycle] at its line. *)
Lemma negative_cycle_on_walks_witness :
  notify_walk ex_lineno 1 ex_stale_engine 5 None (Some 0%nat) []
  = Err (NegativeCycle (ex_lineno 12)).
Proof.
  destruct (negative_cycle_on_walks (T:=ExTarget) ex_lineno ex_getNode unit ex_substitute_call_args
    ex_unify_call_return term_eqb (fun c => c) ex_eval_other ex_eval_builtin
    ex_deliver_other) as [_ [Hwalk _]].
  apply (Hwalk 0%nat ex_stale_engine 5%nat None 0%nat [] (ex_base 0 None None) []).
  - lia.
  - reflexivity.
  - reflexivity.
Defined.

(** C3 on node 6, the call [foo(a)] of the absent node 9: an error under
    [UNKNOWN_ERROR], no solution under [UNKNOWN_FAIL]. *)
Lemma unknown_definition_policy_witness :
  ex_eval 2 (ex_engine UNKNOWN_ERROR) 6 ex_kw
  = Err (UnknownClause ("foo" ++ "/" ++ pretty (length [Cst "a"]))%string
           (ex_lineno 31)) /\
  ex_execute 2 false (ex_engine UNKNOWN_FAIL) 6 ex_kw
  = Ok ([], ex_engine UNKNOWN_FAIL).
Proof.
  split.
  - destruct (unknown_definition_policy (T:=ExTarget) ex_lineno ex_getNode unit ex_substitute_call_args
    ex_unify_call_return term_eqb (fun c => c) ex_eval_other ex_eval_builtin
    ex_deliver_other
      0 (ex_engine UNKNOWN_ERROR) 6 9 31 "foo" [Cst "a"] ex_kw)
      as [Herr _]; [lia|lia|reflexivity|reflexivity|].
    destruct (Herr eq_refl) as [He _]. exact He.
  - destruct (unknown_definition_policy (T:=ExTarget) ex_lineno ex_getNode unit ex_substitute_call_args
    ex_unify_call_return term_eqb (fun c => c) ex_eval_other ex_eval_builtin
    ex_deliver_other
      0 (ex_engine UNKNOWN_FAIL) 6 9 31 "foo" [Cst "a"] ex_kw)
      as [_ Hfail]; [lia|lia|reflexivity|reflexivity|].
    destruct (Hfail eq_refl) as [_ Hx]. exact (Hx false).
Defined.

(** Claim C4, as stated, fails on an empty set: the Not forwards
    [NODE_TRUE] in a result that is not marked last, then a [complete]. *)
Lemma not_empty_complete_not_last :
  @not_complete ExTarget (0 : Z) (ex_base 4 (Some 2%nat) None) []
  = ((0 : Z), true,
     [AResult (Some 2%nat) (Some [Cst "a"]) NODE_TRUE None false;
      AComplete (Some 2%nat) None]).
Proof. reflexivity. Qed.

(** C8 on [ex_stale_engine]: a last result for the outer caller with
    the pointer at 1 raises [InvalidEngineState]. *)
Lemma execute_outer_caller_return_witness :
  ex_exec_loop 1 false ex_stale_engine
    [AResult None (Some [Cst "a"]) NODE_TRUE None true] []
  = Err (InvalidEngineState "Stack not empty at end of execution!").
Proof.
  destruct (execute_outer_caller_return (T:=ExTarget) ex_lineno ex_getNode unit ex_substitute_call_args
    ex_unify_call_return term_eqb (fun c => c) ex_eval_other ex_eval_builtin
    ex_deliver_other
    0 ex_stale_engine [] [] (Some [Cst "a"]) NODE_TRUE None) as [Hnz _].
  apply Hnz. simpl. lia.
Defined.

(** Claim C8 fails when the outer caller receives a [complete]. On a
    fresh engine in [ERROR] mode, [execute] of node 8 (the negation of the
    call [foo(a)], whose definition is absent) allocates its Not record in
    slot 0 and then raises [UnknownClause] at the first step of the loop,
    which changes nothing before it raises: the engine is left as
    [ex_stale_engine]. A later [execute] of the childless disjunction 5
    on that engine returns normally with the pointer at 1 and the Not
    still in slot 0; the last-result branch would have raised
    [InvalidEngineState] there. *)
Lemma execute_complete_leaves_stale_record :
  (exists acts,
     (ex_eval 10 (ex_engine UNKNOWN_ERROR) 8
        {| kw_parent := None; kw_identifier := None; kw_context := [Cst "a"];
           kw_transform := None; kw_call_origin := None |}
      = Ok (ex_stale_engine, acts)) /\
     (ex_exec_loop 10 false ex_stale_engine acts []
      = Err (UnknownClause ("foo" ++ "/" ++ pretty (length [Cst "a"]))%string
               (ex_lineno 31)))) /\
  (ex_execute 10 false (ex_engine UNKNOWN_ERROR) 8 ex_kw
   = Err (UnknownClause ("foo" ++ "/" ++ pretty (length [Cst "a"]))%string
            (ex_lineno 31))) /\
  (ex_execute 10 false ex_stale_engine 5 ex_kw = Ok ([], ex_stale_engine)) /\
  e_pointer ex_stale_engine = 1%nat /\
  (e_stack ex_stale_engine !! 0%nat = Some (Some (EvalNot (ex_base 0 None None) []))) /\
  (ex_exec_loop 1 false ex_stale_engine
     [AResult None (Some [Cst "a"]) NODE_TRUE None true] []
   = Err (InvalidEngineState "Stack not empty at end of execution!")).
Proof.
  split; [eexists; split; reflexivity|].
  split; [reflexivity|]. split; [reflexivity|].
  split; [reflexivity|]. split; reflexivity.
Qed.

(** C10 on a fresh engine: node 5 completes at once; node 7 allocates
    its Or in slot 0 and calls its two children. *)
Lemma disj_eval_messages_witness :
  ex_eval 1 (ex_engine UNKNOWN_ERROR) 5 ex_kw
  = Ok (ex_engine UNKNOWN_ERROR, [AComplete (Some 3%nat) None]) /\
  exists e' acts,
    ex_eval 1 (ex_engine UNKNOWN_ERROR) 7 ex_kw = Ok (e', acts) /\
    e_pointer e' = 1%nat /\ length acts = 2%nat.
Proof.
  split.
  - destruct (disj_eval_messages (T:=ExTarget) ex_lineno ex_getNode unit ex_substitute_call_args
    ex_unify_call_return term_eqb (fun c => c) ex_eval_other ex_eval_builtin
      0 (ex_engine UNKNOWN_ERROR) 5 40 [] ex_kw) as [Hempty _];
      [lia|reflexivity|].
    exact (Hempty eq_refl).
  - destruct (disj_eval_messages (T:=ExTarget) ex_lineno ex_getNode unit ex_substitute_call_args
    ex_unify_call_return term_eqb (fun c => c) ex_eval_other ex_eval_builtin
      0 (ex_engine UNKNOWN_ERROR) 7 41 [6; 8] ex_kw) as [_ Hne];
      [lia|reflexivity|].
    destruct (Hne ltac:(discriminate) eq_refl ltac:(simpl; lia) ltac:(simpl; lia))
      as [e' [Hev [Hp [_ [_ [_ [_ [_ [_ Hlen]]]]]]]]].
    eexists e', _. split; [exact Hev|]. split; [exact Hp|exact Hlen].
Defined.

(* ================================================================== *)
(** * Properties of the further parts of the engine *)

(** ** Equality of terms and keys *)

Lemma term_eqb_eq (a b : term) : term_eqb a b = true <-> a = b.
Proof.
  split; [|intros ->; apply term_eqb_refl].
  revert a b. fix IH 1. intros [i|c|z|f l] [j|d|w|g m]; simpl; intros Hb;
    try discriminate.
  - by apply Nat.eqb_eq in Hb as ->.
  - by apply String.eqb_eq in Hb as ->.
  - by apply Z.eqb_eq in Hb as ->.
  - apply andb_prop in Hb as [Hf Hl]. apply String.eqb_eq in Hf as ->. f_equal.
    revert l m Hl. fix IH2 1. intros [|x l] [|y m]; simpl; intros H;
      try discriminate; [done|].
    apply andb_prop in H as [Hx H]. f_equal; [by apply IH|by apply IH2].
Qed.

Lemma terms_eqb_eq (l m : list term) : terms_eqb l m = true <-> l = m.
Proof.
  split; [|intros ->; apply terms_eqb_refl].
  revert m. induction l as [|x l IH]; intros [|y m]; simpl; intros H;
    try discriminate; [done|].
  apply andb_prop in H as [Hx H]. apply term_eqb_eq in Hx as ->. f_equal. by apply IH.
Qed.

Lemma terms_eqb_spec (l m : list term) : reflect (l = m) (terms_eqb l m).
Proof. apply iff_reflect. symmetry. apply terms_eqb_eq. Qed.

Lemma key_eqb_spec (k k' : key) : reflect (k = k') (key_eqb k k').
Proof.
  apply iff_reflect. destruct k as [f a], k' as [g b]. unfold key_eqb; simpl.
  rewrite andb_true_iff, String.eqb_eq, terms_eqb_eq. split.
  - intros H. by inversion H.
  - intros [-> ->]. done.
Qed.

Lemma pkey_eqb_eq (a b : string * nat) : pkey_eqb a b = true <-> a = b.
Proof.
  destruct a as [f n], b as [g m]. unfold pkey_eqb; simpl.
  rewrite andb_true_iff, String.eqb_eq, Nat.eqb_eq. split.
  - intros [-> ->]. done.
  - intros H. by inversion H.
Qed.

(** ** Association lists with Python's dict operations *)

Section Assoc.
Context {K V : Type} (eqb : K -> K -> bool).
Hypothesis eqb_eq : forall a b, eqb a b = true <-> a = b.

Lemma assoc_eqb_refl (a : K) : eqb a a = true.
Proof. by apply eqb_eq. Qed.

Lemma assoc_eqb_sym (a b : K) : eqb a b = eqb b a.
Proof.
  destruct (eqb a b) eqn:E1, (eqb b a) eqn:E2; try done.
  - apply eqb_eq in E1 as ->. by rewrite assoc_eqb_refl in E2.
  - apply eqb_eq in E2 as ->. by rewrite assoc_eqb_refl in E1.
Qed.

Lemma assoc_get_set (k k' : K) (v : V) (l : list (K * V)) :
  assoc_get eqb k' (assoc_set eqb k v l) =
  if eqb k' k then Some v else assoc_get eqb k' l.
Proof.
  induction l as [|[k0 v0] l IH]; simpl; [done|].
  destruct (eqb k k0) eqn:E1.
  - apply eqb_eq in E1 as ->. simpl. by destruct (eqb k' k0).
  - simpl. destruct (eqb k' k0) eqn:E2; [|exact IH].
    apply eqb_eq in E2 as ->. by rewrite assoc_eqb_sym, E1.
Qed.

Lemma assoc_get_notin (k : K) (l : list (K * V)) :
  k ∉ map fst l -> assoc_get eqb k l = None.
Proof.
  induction l as [|[k0 v0] l IH]; simpl; [done|]. intros Hn.
  destruct (eqb k k0) eqn:E.
  - apply eqb_eq in E as ->. exfalso. apply Hn. left.
  - apply IH. intros Hin. apply Hn. by right.
Qed.

Lemma assoc_get_elem (k : K) (v : V) (l : list (K * V)) :
  assoc_get eqb k l = Some v -> (k, v) ∈ l.
Proof.
  induction l as [|[k0 v0] l IH]; simpl; [done|].
  destruct (eqb k k0) eqn:E.
  - apply eqb_eq in E as ->. intros [= ->]. left.
  - intros H. right. by apply IH.
Qed.

Lemma assoc_get_Forall (P : K * V -> Prop) (k : K) (v : V) (l : list (K * V)) :
  Forall P l -> assoc_get eqb k l = Some v -> P (k, v).
Proof.
  intros HF Hg. apply assoc_get_elem in Hg. rewrite Forall_forall in HF. by apply HF.
Qed.

Lemma assoc_set_fst (k x : K) (v : V) (l : list (K * V)) :
  x ∈ map fst (assoc_set eqb k v l) <-> x = k \/ x ∈ map fst l.
Proof.
  induction l as [|[k0 v0] l IH]; simpl.
  - rewrite list_elem_of_singleton. split; [by left|]. intros [->|H]; [done|].
    by apply elem_of_nil in H.
  - destruct (eqb k k0) eqn:E; simpl.
    + apply eqb_eq in E as ->. rewrite !elem_of_cons. tauto.
    + rewrite !elem_of_cons, IH. tauto.
Qed.

Lemma assoc_set_NoDup (k : K) (v : V) (l : list (K * V)) :
  NoDup (map fst l) -> NoDup (map fst (assoc_set eqb k v l)).
Proof.
  induction l as [|[k0 v0] l IH]; simpl; intros Hnd.
  - apply NoDup_singleton.
  - destruct (eqb k k0) eqn:E; [exact Hnd|]. simpl.
    apply NoDup_cons in Hnd as [Hn Hnd]. apply NoDup_cons. split; [|by apply IH].
    rewrite assoc_set_fst. intros [->|H]; [by rewrite assoc_eqb_refl in E|done].
Qed.

Lemma assoc_set_Forall (P : K * V -> Prop) (k : K) (v : V) (l : list (K * V)) :
  Forall P l -> P (k, v) -> Forall P (assoc_set eqb k v l).
Proof.
  induction l as [|[k0 v0] l IH]; simpl; intros HF Hp.
  - by constructor.
  - apply Forall_cons in HF as [H0 HF]. destruct (eqb k k0) eqn:E.
    + apply eqb_eq in E as ->. by constructor.
    + constructor; [done|]. by apply IH.
Qed.

Lemma assoc_set_nonnil (k : K) (v : V) (l : list (K * V)) :
  assoc_set eqb k v l <> [].
Proof. destruct l as [|[k0 v0] l]; simpl; [done|]. by destruct (eqb k k0). Qed.

Lemma assoc_del_absent (k : K) (l : list (K * V)) :
  assoc_get eqb k l = None -> assoc_del eqb k l = Err KeyError.
Proof.
  induction l as [|[k0 v0] l IH]; simpl; [done|].
  destruct (eqb k k0); [done|]. intros H. by rewrite IH.
Qed.

Lemma assoc_del_present (k : K) (v : V) (l : list (K * V)) :
  assoc_get eqb k l = Some v -> exists l', assoc_del eqb k l = Ok l'.
Proof.
  induction l as [|[k0 v0] l IH]; simpl; [done|].
  destruct (eqb k k0); [by eauto|]. intros H.
  destruct (IH H) as [l' ->]. by eexists.
Qed.

Lemma assoc_del_elem (k : K) (l l' : list (K * V)) :
  assoc_del eqb k l = Ok l' -> forall kv, kv ∈ l' -> kv ∈ l.
Proof.
  revert l'. induction l as [|[k0 v0] l IH]; simpl; intros l' Hd kv Hin; [done|].
  destruct (eqb k k0).
  - injection Hd as <-. by right.
  - destruct (assoc_del eqb k l) as [l''|] eqn:E; [|done]. injection Hd as <-.
    apply elem_of_cons in Hin as [->|Hin]; [left|right]. by apply (IH l'').
Qed.

Lemma assoc_del_Forall (P : K * V -> Prop) (k : K) (l l' : list (K * V)) :
  assoc_del eqb k l = Ok l' -> Forall P l -> Forall P l'.
Proof.
  intros Hd HF. rewrite Forall_forall in HF |- *. intros kv Hin.
  apply HF. by apply (assoc_del_elem k l l').
Qed.

Lemma assoc_del_NoDup (k : K) (l l' : list (K * V)) :
  assoc_del eqb k l = Ok l' -> NoDup (map fst l) -> NoDup (map fst l').
Proof.
  revert l'. induction l as [|[k0 v0] l IH]; simpl; intros l' Hd Hnd; [done|].
  apply NoDup_cons in Hnd as [Hn Hnd]. destruct (eqb k k0).
  - by injection Hd as <-.
  - destruct (assoc_del eqb k l) as [l''|] eqn:E; [|done]. injection Hd as <-.
    simpl. apply NoDup_cons. split; [|by apply IH].
    intros Hin. apply Hn. apply list_elem_of_fmap in Hin as [[x y] [Hx Hin]].
    simpl in Hx. subst x. apply list_elem_of_fmap. exists (k0, y). split; [done|].
    by apply (assoc_del_elem k l l'').
Qed.

Lemma assoc_del_get (k k' : K) (l l' : list (K * V)) :
  NoDup (map fst l) -> assoc_del eqb k l = Ok l' ->
  assoc_get eqb k' l' = if eqb k' k then None else assoc_get eqb k' l.
Proof.
  revert l'. induction l as [|[k0 v0] l IH]; simpl; intros l' Hnd Hd; [done|].
  apply NoDup_cons in Hnd as [Hn Hnd]. destruct (eqb k k0) eqn:E1.
  - apply eqb_eq in E1 as ->. injection Hd as <-.
    destruct (eqb k' k0) eqn:E2; [|done].
    apply eqb_eq in E2 as ->. by apply assoc_get_notin.
  - destruct (assoc_del eqb k l) as [l''|] eqn:E; [|done]. injection Hd as <-.
    simpl. destruct (eqb k' k0) eqn:E2.
    + apply eqb_eq in E2 as ->. by rewrite assoc_eqb_sym, E1.
    + by apply IH.
Qed.

End Assoc.

(** ** The descent into the nested dictionaries *)

Lemma term_eqb_eq' : forall a b, term_eqb a b = true <-> a = b.
Proof. exact term_eqb_eq. Qed.

Lemma pkey_eqb_eq' : forall a b, pkey_eqb a b = true <-> a = b.
Proof. exact pkey_eqb_eq. Qed.

Lemma nd_path_empty {V} (s : term) (ss : list term) :
  nd_path (@NDDict V []) (s :: ss) = Err KeyError.
Proof. reflexivity. Qed.

Lemma nd_path_cons {V} (m : list (term * ndnode V)) (s : term) (ss : list term) :
  nd_path (NDDict m) (s :: ss) =
  match assoc_get term_eqb s m with None => Err KeyError | Some e' => nd_path e' ss end.
Proof. reflexivity. Qed.

(** A descent of the right length through a well-shaped dict ends at a
    stored value or raises [KeyError]. *)
Lemma nd_path_shape {V} (ss : list term) : forall (t : ndnode V),
  nd_shape (length ss) t ->
  nd_path t ss = Err KeyError \/ exists v, nd_path t ss = Ok (NDLeaf v).
Proof.
  induction ss as [|s ss IH]; intros [v|m] Hs; simpl in Hs |- *; try done.
  - right. by eexists.
  - destruct Hs as (_ & _ & HF).
    destruct (assoc_get term_eqb s m) as [t|] eqn:E; [|by left].
    apply IH. exact (assoc_get_Forall term_eqb term_eqb_eq'
                       (fun kv => nd_shape (length ss) kv.2) s t m HF E).
Qed.

Lemma nd_put_spec {V} (ss : list term) : forall (m : list (term * ndnode V)) s v,
  NoDup (map fst m) -> Forall (fun kv => nd_shape (length ss) kv.2) m ->
  exists m', nd_put m s ss v = Ok m' /\ m' <> [] /\ NoDup (map fst m') /\
    Forall (fun kv => nd_shape (length ss) kv.2) m' /\
    forall s' ss', length ss' = length ss ->
      nd_value (nd_path (NDDict m') (s' :: ss')) =
      if terms_eqb (s' :: ss') (s :: ss) then Some v
      else nd_value (nd_path (NDDict m) (s' :: ss')).
Proof.
  induction ss as [|s1 ss1 IH]; intros m s v Hnd HF; cbn [nd_put length].
  - eexists. split; [reflexivity|]. split; [apply assoc_set_nonnil|].
    split; [by apply assoc_set_NoDup; [exact term_eqb_eq'|]|].
    split; [by apply assoc_set_Forall; [exact term_eqb_eq'| |]|].
    intros s' [|? ?] Hl; [|done]. rewrite !nd_path_cons.
    rewrite (assoc_get_set term_eqb term_eqb_eq'). simpl. rewrite andb_true_r.
    by destruct (term_eqb s' s).
  - assert (exists c, (match assoc_get term_eqb s m with
                      | None => Ok [] | Some n => nd_children n end) = Ok c /\
            NoDup (map fst c) /\ Forall (fun kv => nd_shape (length ss1) kv.2) c /\
            forall p, nd_value (nd_path (NDDict c) p) =
              match assoc_get term_eqb s m with
              | None => None | Some e' => nd_value (nd_path e' p) end)
      as (c & Hc & Hcnd & HcF & Hcl).
    { destruct (assoc_get term_eqb s m) as [t|] eqn:E.
      - pose proof (assoc_get_Forall term_eqb term_eqb_eq'
                      (fun kv => nd_shape (length (s1 :: ss1)) kv.2) s t m HF E) as Ht.
        destruct t as [w|c]; simpl in Ht; [done|]. destruct Ht as (_ & Hcnd & HcF).
        exists c. done.
      - exists []. split; [done|]. split; [constructor|]. split; [constructor|].
        intros [|x p]; done. }
    rewrite Hc. destruct (IH c s1 v Hcnd HcF) as (c' & Hput & Hne & Hnd' & HF' & Hl).
    rewrite Hput. eexists. split; [reflexivity|].
    split; [apply assoc_set_nonnil|].
    split; [by apply assoc_set_NoDup; [exact term_eqb_eq'|]|].
    split; [apply assoc_set_Forall; [exact term_eqb_eq'|exact HF|by simpl]|].
    intros s' [|s1' ss1'] Hlen; [done|]. simpl in Hlen. injection Hlen as Hlen.
    rewrite !nd_path_cons, (assoc_get_set term_eqb term_eqb_eq').
    change (terms_eqb (s' :: s1' :: ss1') (s :: s1 :: ss1)) with
      (term_eqb s' s && terms_eqb (s1' :: ss1') (s1 :: ss1)).
    destruct (term_eqb s' s) eqn:E; cbn [andb]; [|done].
    apply term_eqb_eq in E as ->. rewrite (Hl s1' ss1' Hlen), Hcl.
    destruct (terms_eqb (s1' :: ss1') (s1 :: ss1)); [done|].
    by destruct (assoc_get term_eqb s m).
Qed.

Lemma nd_remove_spec {V} (ss : list term) : forall (m : list (term * ndnode V)) s,
  NoDup (map fst m) -> Forall (fun kv => nd_shape (length ss) kv.2) m ->
  match nd_remove m s ss with
  | Ok m' => nd_value (nd_path (NDDict m) (s :: ss)) <> None /\
      NoDup (map fst m') /\ Forall (fun kv => nd_shape (length ss) kv.2) m' /\
      forall s' ss', length ss' = length ss ->
        nd_value (nd_path (NDDict m') (s' :: ss')) =
        if terms_eqb (s' :: ss') (s :: ss) then None
        else nd_value (nd_path (NDDict m) (s' :: ss'))
  | Err x => x = KeyError /\ nd_value (nd_path (NDDict m) (s :: ss)) = None
  end.
Proof.
  induction ss as [|s1 ss1 IH]; intros m s Hnd HF; cbn [nd_remove length].
  - destruct (assoc_get term_eqb s m) as [t|] eqn:E.
    + pose proof (assoc_get_Forall term_eqb term_eqb_eq'
                    (fun kv => nd_shape 0 kv.2) s t m HF E) as Ht.
      destruct t as [w|c]; simpl in Ht; [|done].
      destruct (assoc_del_present term_eqb s _ m E) as [m' Hd].
      rewrite Hd. split; [rewrite nd_path_cons, E; discriminate|].
      split; [by apply (assoc_del_NoDup term_eqb s m)|].
      split; [by apply (assoc_del_Forall term_eqb _ s m)|].
      intros s' [|? ?] Hl; [|done]. rewrite !nd_path_cons.
      rewrite (assoc_del_get term_eqb term_eqb_eq' s s' m m' Hnd Hd).
      change (terms_eqb [s'] [s]) with (term_eqb s' s && true).
      rewrite andb_true_r. by destruct (term_eqb s' s).
    + rewrite (assoc_del_absent term_eqb s m E). split; [done|].
      by rewrite nd_path_cons, E.
  - destruct (assoc_get term_eqb s m) as [t|] eqn:E;
      [|split; [done|]; by rewrite nd_path_cons, E].
    pose proof (assoc_get_Forall term_eqb term_eqb_eq'
                  (fun kv => nd_shape (length (s1 :: ss1)) kv.2) s t m HF E) as Ht.
    destruct t as [w|c]; simpl in Ht; [done|]. destruct Ht as (Hcne & Hcnd & HcF).
    cbn [nd_children]. specialize (IH c s1 Hcnd HcF).
    destruct (nd_remove c s1 ss1) as [c'|x] eqn:Hr;
      [|destruct IH as [-> IH]; split; [done|]; by rewrite nd_path_cons, E].
    destruct IH as (Hpres & Hnd' & HF' & Hl).
    assert (Hcommon : forall s' s1' ss1', length ss1' = length ss1 ->
      nd_value (nd_path (NDDict m) (s' :: s1' :: ss1')) =
      if term_eqb s' s then nd_value (nd_path (NDDict c) (s1' :: ss1'))
      else nd_value (nd_path (NDDict m) (s' :: s1' :: ss1'))).
    { intros s' s1' ss1' _. destruct (term_eqb s' s) eqn:Es; [|done].
      apply term_eqb_eq in Es as ->. by rewrite nd_path_cons, E. }
    destruct c' as [|y c'].
    + destruct (assoc_del_present term_eqb s _ m E) as [m' Hd].
      rewrite Hd. split; [rewrite nd_path_cons, E; exact Hpres|].
      split; [by apply (assoc_del_NoDup term_eqb s m)|].
      split; [by apply (assoc_del_Forall term_eqb _ s m)|].
      intros s' [|s1' ss1'] Hlen; [done|]. simpl in Hlen. injection Hlen as Hlen.
      rewrite (Hcommon s' s1' ss1' Hlen), nd_path_cons.
      rewrite (assoc_del_get term_eqb term_eqb_eq' s s' m m' Hnd Hd).
      change (terms_eqb (s' :: s1' :: ss1') (s :: s1 :: ss1)) with
        (term_eqb s' s && terms_eqb (s1' :: ss1') (s1 :: ss1)).
      destruct (term_eqb s' s); cbn [andb]; [|done].
      specialize (Hl s1' ss1' Hlen). rewrite nd_path_empty in Hl.
      destruct (terms_eqb (s1' :: ss1') (s1 :: ss1)); [done|]. by rewrite <- Hl.
    + split; [rewrite nd_path_cons, E; exact Hpres|].
      split; [by apply assoc_set_NoDup; [exact term_eqb_eq'|]|].
      split; [apply assoc_set_Forall; [exact term_eqb_eq'|exact HF|by simpl]|].
      intros s' [|s1' ss1'] Hlen; [done|]. simpl in Hlen. injection Hlen as Hlen.
      rewrite (Hcommon s' s1' ss1' Hlen), nd_path_cons.
      rewrite (assoc_get_set term_eqb term_eqb_eq').
      change (terms_eqb (s' :: s1' :: ss1') (s :: s1 :: ss1)) with
        (term_eqb s' s && terms_eqb (s1' :: ss1') (s1 :: ss1)).
      destruct (term_eqb s' s); cbn [andb]; [|by rewrite nd_path_cons].
      exact (Hl s1' ss1' Hlen).
Qed.

Lemma ndt_lookup_unfold {V} (base : ndbase V) (g : string) (b : list term) :
  ndt_lookup base (g, b) =
  match assoc_get pkey_eqb (g, length b) base with
  | None => None
  | Some t => nd_value (nd_path t b)
  end.
Proof.
  unfold ndt_lookup, ndt_getitem. cbn [fst snd].
  by destruct (assoc_get pkey_eqb (g, length b) base).
Qed.

Lemma ndt_base_shape {V} (base : ndbase V) (g : string) (n : nat) (t : ndnode V) :
  ndt_wf base -> assoc_get pkey_eqb (g, n) base = Some t -> nd_shape n t.
Proof.
  intros [_ HF] E.
  exact (assoc_get_Forall pkey_eqb pkey_eqb_eq'
           (fun kv => nd_shape kv.1.2 kv.2) (g, n) t base HF E).
Qed.

Lemma ndt_wf_nil {V} : ndt_wf (V:=V) [].
Proof. split; constructor. Qed.

(** The dict stored under [(functor, n + 1)], or the empty dict that
    [__setitem__] puts there. *)
Lemma ndt_child_dict {V} (base : ndbase V) (g : string) (s : term) (ss : list term) :
  ndt_wf base ->
  exists c, (match assoc_get pkey_eqb (g, length (s :: ss)) base with
             | None => Ok [] | Some n => nd_children n end) = Ok c /\
    NoDup (map fst c) /\ Forall (fun kv => nd_shape (length ss) kv.2) c /\
    forall b, length b = length (s :: ss) ->
      nd_value (nd_path (NDDict c) b) = ndt_lookup base (g, b).
Proof.
  intros Hwf. destruct (assoc_get pkey_eqb (g, length (s :: ss)) base) as [t|] eqn:E.
  - pose proof (ndt_base_shape base g _ t Hwf E) as Ht.
    destruct t as [w|c]; simpl in Ht; [done|]. destruct Ht as (_ & Hcnd & HcF).
    exists c. do 3 (split; [done|]). intros b Hb.
    by rewrite ndt_lookup_unfold, Hb, E.
  - exists []. split; [done|]. split; [constructor|]. split; [constructor|].
    intros [|x b] Hb; [done|]. by rewrite ndt_lookup_unfold, Hb, E.
Qed.

(** X1: [NestedDict.__setitem__] on the nested dictionaries it keeps
    never fails, keeps their shape, and acts on the stored values as the
    map update [nd_set]: the key now gives the new value, every other key
    what it gave before. *)
Theorem ndt_setitem_refines {V} (base : ndbase V) (d : NestedDict V)
    (k : key) (v : V) :
  ndt_wf base -> (forall k', ndt_lookup base k' = d k') ->
  exists base', ndt_setitem base k v = Ok base' /\ ndt_wf base' /\
    forall k', ndt_lookup base' k' = nd_set d k v k'.
Proof.
  intros Hwf Hrep. pose proof Hwf as [Hnd HF]. destruct k as [f a].
  unfold ndt_setitem, nd_set. cbn [fst snd]. destruct a as [|s ss].
  - eexists. split; [reflexivity|]. split.
    + split; [by apply assoc_set_NoDup; [exact pkey_eqb_eq'|]|].
      by apply assoc_set_Forall; [exact pkey_eqb_eq'|exact HF|].
    + intros [g b]. rewrite ndt_lookup_unfold, (assoc_get_set pkey_eqb pkey_eqb_eq').
      destruct (key_eqb_spec (f, []) (g, b)) as [Heq|Hne].
      * injection Heq as <- <-. by rewrite (proj2 (pkey_eqb_eq _ _) eq_refl).
      * destruct (pkey_eqb (g, length b) (f, length [])) eqn:Ep.
        -- apply pkey_eqb_eq in Ep. injection Ep as -> Hl.
           destruct b; [done|discriminate].
        -- rewrite <- Hrep, ndt_lookup_unfold. reflexivity.
  - destruct (ndt_child_dict base f s ss Hwf) as (c & Hc & Hcnd & HcF & Hcl).
    rewrite Hc. destruct (nd_put_spec ss c s v Hcnd HcF)
      as (c' & Hput & Hne & Hnd' & HF' & Hl).
    rewrite Hput. eexists. split; [reflexivity|]. split.
    + split; [by apply assoc_set_NoDup; [exact pkey_eqb_eq'|]|].
      by apply assoc_set_Forall; [exact pkey_eqb_eq'|exact HF|].
    + intros [g b]. rewrite ndt_lookup_unfold, (assoc_get_set pkey_eqb pkey_eqb_eq').
      destruct (pkey_eqb (g, length b) (f, length (s :: ss))) eqn:Ep.
      * apply pkey_eqb_eq in Ep. injection Ep as -> Hlen.
        destruct b as [|s' ss']; [done|]. simpl in Hlen. injection Hlen as Hlen.
        rewrite (Hl s' ss' Hlen).
        destruct (key_eqb_spec (f, s :: ss) (f, s' :: ss')) as [Heq|Hneq].
        -- injection Heq as <- <-. by rewrite terms_eqb_refl.
        -- destruct (terms_eqb_spec (s' :: ss') (s :: ss)) as [Heq|_];
             [by rewrite Heq in Hneq|].
           rewrite Hcl; [apply Hrep|]. simpl. by rewrite Hlen.
      * destruct (key_eqb_spec (f, s :: ss) (g, b)) as [Heq|_].
        -- injection Heq as <- <-. by rewrite (proj2 (pkey_eqb_eq _ _) eq_refl) in Ep.
        -- rewrite <- Hrep, ndt_lookup_unfold. reflexivity.
Qed.

(** X2: [NestedDict.__delitem__] raises [KeyError] exactly when the key
    holds no value, as the map deletion [nd_del] does; otherwise it
    keeps the dictionaries' shape (it prunes every dict it leaves empty)
    and acts on the stored values as [nd_del]. *)
Theorem ndt_delitem_refines {V} (base : ndbase V) (d : NestedDict V) (k : key) :
  ndt_wf base -> (forall k', ndt_lookup base k' = d k') ->
  match ndt_delitem base k, nd_del d k with
  | Ok base', Ok d' => ndt_wf base' /\ forall k', ndt_lookup base' k' = d' k'
  | Err x, Err y => x = KeyError /\ y = KeyError
  | _, _ => False
  end.
Proof.
  intros Hwf Hrep. pose proof Hwf as [Hnd HF]. destruct k as [f a].
  unfold ndt_delitem, nd_del. rewrite <- Hrep. cbn [fst snd].
  destruct a as [|s ss].
  - rewrite ndt_lookup_unfold.
    destruct (assoc_get pkey_eqb (f, length []) base) as [t|] eqn:E;
      [|by rewrite (assoc_del_absent pkey_eqb _ base E)].
    pose proof (ndt_base_shape base f _ t Hwf E) as Ht.
    destruct t as [w|c]; simpl in Ht; [|done].
    destruct (assoc_del_present pkey_eqb _ _ base E) as [base' Hd]. rewrite Hd.
    split.
    + split; [exact (assoc_del_NoDup pkey_eqb _ base base' Hd Hnd)|].
      exact (assoc_del_Forall pkey_eqb _ _ base base' Hd HF).
    + intros [g b]. rewrite ndt_lookup_unfold.
      rewrite (assoc_del_get pkey_eqb pkey_eqb_eq' _ _ base base' Hnd Hd).
      destruct (key_eqb_spec (f, []) (g, b)) as [Heq|Hne].
      * injection Heq as <- <-. by rewrite (proj2 (pkey_eqb_eq _ _) eq_refl).
      * destruct (pkey_eqb (g, length b) (f, length [])) eqn:Ep.
        -- apply pkey_eqb_eq in Ep. injection Ep as -> Hl.
           destruct b; [done|discriminate].
        -- rewrite <- Hrep, ndt_lookup_unfold. reflexivity.
  - rewrite ndt_lookup_unfold.
    destruct (assoc_get pkey_eqb (f, length (s :: ss)) base) as [t|] eqn:E;
      [|done].
    pose proof (ndt_base_shape base f _ t Hwf E) as Ht.
    destruct t as [w|c]; simpl in Ht; [done|]. destruct Ht as (Hcne & Hcnd & HcF).
    cbn [nd_children]. pose proof (nd_remove_spec ss c s Hcnd HcF) as Hr.
    destruct (nd_remove c s ss) as [c'|x]; [|by destruct Hr as [-> ->]].
    destruct Hr as (Hpres & Hnd' & HF' & Hl).
    destruct (nd_value (nd_path (NDDict c) (s :: ss))) as [w|] eqn:Ew; [|done].
    assert (Hold : forall g b, length b = length (s :: ss) ->
      pkey_eqb (g, length b) (f, length (s :: ss)) = true ->
      exists s' ss', b = s' :: ss' /\ g = f /\ length ss' = length ss /\
        d (g, b) = nd_value (nd_path (NDDict c) (s' :: ss'))).
    { intros g b Hb Ep. apply pkey_eqb_eq in Ep. injection Ep as -> _.
      destruct b as [|s' ss']; [done|]. exists s', ss'. simpl in Hb.
      injection Hb as Hb. do 3 (split; [done|]).
      assert (E' : assoc_get pkey_eqb (f, length (s' :: ss')) base = Some (NDDict c))
        by (simpl; rewrite Hb; exact E).
      by rewrite <- Hrep, ndt_lookup_unfold, E'. }
    destruct c' as [|y c'].
    + destruct (assoc_del_present pkey_eqb _ _ base E) as [base' Hd]. rewrite Hd.
      split.
      * split; [exact (assoc_del_NoDup pkey_eqb _ base base' Hd Hnd)|].
        exact (assoc_del_Forall pkey_eqb _ _ base base' Hd HF).
      * intros [g b]. rewrite ndt_lookup_unfold.
        rewrite (assoc_del_get pkey_eqb pkey_eqb_eq' _ _ base base' Hnd Hd).
        destruct (pkey_eqb (g, length b) (f, length (s :: ss))) eqn:Ep.
        -- assert (Hb : length b = length (s :: ss)).
           { apply pkey_eqb_eq in Ep. by injection Ep. }
           destruct (Hold g b Hb Ep) as (s' & ss' & -> & -> & Hlen & Hd').
           rewrite Hd'. specialize (Hl s' ss' Hlen). rewrite nd_path_empty in Hl.
           destruct (key_eqb_spec (f, s :: ss) (f, s' :: ss')) as [Heq|Hneq];
             [done|].
           destruct (terms_eqb_spec (s' :: ss') (s :: ss)) as [Heq|_];
             [by rewrite Heq in Hneq|done].
        -- destruct (key_eqb_spec (f, s :: ss) (g, b)) as [Heq|_].
           ++ injection Heq as <- <-.
              by rewrite (proj2 (pkey_eqb_eq _ _) eq_refl) in Ep.
           ++ rewrite <- Hrep, ndt_lookup_unfold. reflexivity.
    + split.
      * split; [by apply assoc_set_NoDup; [exact pkey_eqb_eq'|]|].
        by apply assoc_set_Forall; [exact pkey_eqb_eq'|exact HF|].
      * intros [g b]. rewrite ndt_lookup_unfold, (assoc_get_set pkey_eqb pkey_eqb_eq').
        destruct (pkey_eqb (g, length b) (f, length (s :: ss))) eqn:Ep.
        -- assert (Hb : length b = length (s :: ss)).
           { apply pkey_eqb_eq in Ep. by injection Ep. }
           destruct (Hold g b Hb Ep) as (s' & ss' & -> & -> & Hlen & Hd').
           rewrite Hd', (Hl s' ss' Hlen).
           destruct (key_eqb_spec (f, s :: ss) (f, s' :: ss')) as [Heq|Hneq].
           ++ injection Heq as <- <-. by rewrite terms_eqb_refl.
           ++ destruct (terms_eqb_spec (s' :: ss') (s :: ss)) as [Heq|_];
                [by rewrite Heq in Hneq|done].
        -- destruct (key_eqb_spec (f, s :: ss) (g, b)) as [Heq|_].
           ++ injection Heq as <- <-.
              by rewrite (proj2 (pkey_eqb_eq _ _) eq_refl) in Ep.
           ++ rewrite <- Hrep, ndt_lookup_unfold. reflexivity.
Qed.

(** X3: on the dictionaries [__setitem__] builds, [NestedDict.get] never
    raises and returns the stored value or [None], and [in] tells
    whether a value is stored. *)
Theorem ndt_get_contains {V} (base : ndbase V) (k : key) :
  ndt_wf base ->
  ndt_get base k = Ok (NDLeaf <$> ndt_lookup base k) /\
  ndt_contains base k = Ok (bool_decide (is_Some (ndt_lookup base k))).
Proof.
  intros Hwf. destruct k as [g b].
  unfold ndt_get, ndt_contains. rewrite ndt_lookup_unfold.
  unfold ndt_getitem. cbn [fst snd].
  destruct (assoc_get pkey_eqb (g, length b) base) as [t|] eqn:E; [|done].
  pose proof (ndt_base_shape base g _ t Hwf E) as Ht.
  destruct (nd_path_shape b t Ht) as [->|[w ->]]; done.
Qed.

(** ** The arena of records *)

Section Arena.
Context `{T : Target}.

Lemma drop_free_iff {A} (l : list (option A)) (p : nat) :
  Forall (fun o => o = None) (drop p l) <->
  forall i o, (p <= i)%nat -> l !! i = Some o -> o = None.
Proof.
  rewrite Forall_lookup. split.
  - intros Hf i o Hi Hl. apply (Hf (i - p)%nat). rewrite lookup_drop.
    by replace (p + (i - p))%nat with i by lia.
  - intros Hf i o Hl. rewrite lookup_drop in Hl. apply (Hf (p + i)%nat); [lia|done].
Qed.

(** The rewind loop stops below the first record under the pointer and
    skips only free slots. *)
Lemma rewind_spec (s : list (option record)) (p : nat) :
  (p <= length s)%nat ->
  exists q, rewind s p = Ok q /\ (q <= p)%nat /\
    (q = 0%nat \/ is_Some (mjoin (s !! pred q))) /\
    forall i, (q <= i < p)%nat -> s !! i = Some None.
Proof.
  induction p as [|p IH]; intros Hp; simpl.
  - exists 0%nat. split; [done|]. split; [lia|]. split; [by left|]. lia.
  - destruct (s !! p) as [[r|]|] eqn:E.
    + exists (S p). split; [done|]. split; [lia|].
      split; [right; simpl; rewrite E; by eexists|]. lia.
    + destruct (IH ltac:(lia)) as (q & Hq & Hle & Htop & Hfree).
      exists q. split; [done|]. split; [lia|]. split; [done|].
      intros i Hi. destruct (decide (i = p)) as [->|Hne]; [done|].
      apply Hfree. lia.
    + apply lookup_ge_None in E. lia.
Qed.

End Arena.

(** X4: [add_record] on a well-kept arena never fails: it stores the
    record at the old pointer (growing the list when it is full), moves
    the pointer one up, leaves the other slots and the cycle root as they
    were, and keeps the arena well kept. *)
Theorem add_record_arena {T : Target} (e : engine) (r : record) :
  arena_ok e ->
  exists e', add_record e r = Ok e' /\ arena_ok e' /\
    e_pointer e' = S (e_pointer e) /\
    e_stack e' !! e_pointer e = Some (Some r) /\
    (forall i, i <> e_pointer e -> (i < length (e_stack e))%nat ->
       e_stack e' !! i = e_stack e !! i) /\
    e_cycle_root e' = e_cycle_root e.
Proof.
  intros (Hlen & Hpos & Hle & Hfree & Htop). rewrite drop_free_iff in Hfree.
  unfold add_record.
  destruct (e_stack_size e <=? e_pointer e)%nat eqn:G.
  - apply Nat.leb_le in G.
    assert (Hlt : (e_pointer (grow_stack e) < length (e_stack (grow_stack e)))%nat).
    { simpl. rewrite length_app, length_replicate. lia. }
    apply Nat.ltb_lt in Hlt. rewrite Hlt. apply Nat.ltb_lt in Hlt.
    eexists. split; [reflexivity|]. cbn [e_pointer e_stack e_stack_size grow_stack with_stack e_cycle_root] in *.
    split; [|split; [done|]; split; [|split]].
    + unfold arena_ok. cbn [e_pointer e_stack e_stack_size grow_stack with_stack].
      split; [rewrite length_insert, length_app, length_replicate; lia|].
      split; [lia|]. split; [lia|]. split.
      * apply drop_free_iff. intros i o Hi Hl.
        rewrite list_lookup_insert_ne in Hl by lia.
        destruct (decide (i < length (e_stack e))%nat) as [Hin|Hout].
        -- rewrite lookup_app_l in Hl by done. apply (Hfree i); [lia|done].
        -- rewrite lookup_app_r in Hl by lia. apply lookup_replicate in Hl. by destruct Hl.
      * right. simpl. rewrite list_lookup_insert_eq by done. by eexists.
    + by rewrite list_lookup_insert_eq.
    + intros i Hne Hi. rewrite list_lookup_insert_ne by done.
      by rewrite lookup_app_l.
    + done.
  - apply Nat.leb_gt in G.
    assert (Hlt : (e_pointer e < length (e_stack e))%nat) by lia.
    apply Nat.ltb_lt in Hlt. rewrite Hlt. apply Nat.ltb_lt in Hlt.
    eexists. split; [reflexivity|]. cbn [e_pointer e_stack e_stack_size with_stack e_cycle_root].
    split; [|split; [done|]; split; [|split]].
    + unfold arena_ok. cbn [e_pointer e_stack e_stack_size with_stack].
      split; [by rewrite length_insert|].
      split; [lia|]. split; [lia|]. split.
      * apply drop_free_iff. intros i o Hi Hl.
        rewrite list_lookup_insert_ne in Hl by lia. apply (Hfree i); [lia|done].
      * right. simpl. rewrite list_lookup_insert_eq by done. by eexists.
    + by rewrite list_lookup_insert_eq.
    + intros i Hne Hi. by rewrite list_lookup_insert_ne.
    + done.
Qed.

(** X5: [cleanUp(obj)] on a well-kept arena and a slot of it never fails:
    it frees that slot, clears the cycle root exactly when it was that
    record, lowers the pointer over the free slots only, and keeps the
    arena well kept. *)
Theorem cleanUp_arena {T : Target} (e : engine) (obj : nat) :
  arena_ok e -> (obj < e_stack_size e)%nat ->
  exists e', cleanUp e obj = Ok e' /\ arena_ok e' /\
    e_stack e' = <[obj := None]> (e_stack e) /\
    (e_pointer e' <= e_pointer e)%nat /\
    (forall i, (e_pointer e' <= i < e_pointer e)%nat -> e_stack e' !! i = Some None) /\
    e_cycle_root e' = (if bool_decide (e_cycle_root e = Some obj) then None
                       else e_cycle_root e).
Proof.
  intros (Hlen & Hpos & Hle & Hfree & Htop) Hobj. rewrite drop_free_iff in Hfree.
  unfold cleanUp.
  set (e1 := if bool_decide (e_cycle_root e = Some obj) then with_cycle_root e None else e).
  assert (He1 : e_stack e1 = e_stack e /\ e_pointer e1 = e_pointer e /\
                e_stack_size e1 = e_stack_size e /\
                e_cycle_root e1 = if bool_decide (e_cycle_root e = Some obj)
                                  then None else e_cycle_root e).
  { subst e1. by destruct (bool_decide (e_cycle_root e = Some obj)). }
  destruct He1 as (Hs1 & Hp1 & Hz1 & Hc1). rewrite Hs1, Hp1.
  assert (Hlt : (obj < length (e_stack e))%nat) by lia.
  apply Nat.ltb_lt in Hlt. rewrite Hlt. apply Nat.ltb_lt in Hlt.
  destruct (rewind_spec (<[obj := None]> (e_stack e)) (e_pointer e))
    as (q & Hq & Hqle & Hqtop & Hqfree); [rewrite length_insert; lia|].
  rewrite Hq. eexists. split; [reflexivity|].
  cbn [e_pointer e_stack e_stack_size with_stack e_cycle_root].
  split; [|split; [done|]; split; [done|]; split; [done|exact Hc1]].
  unfold arena_ok. cbn [e_pointer e_stack e_stack_size with_stack].
  split; [by rewrite length_insert, Hz1|]. rewrite Hz1.
  split; [done|]. split; [lia|]. split; [|done].
  apply drop_free_iff. intros i o Hi Hl.
  destruct (decide (i < e_pointer e)%nat) as [Hlow|Hhigh].
  - rewrite Hqfree in Hl by lia. by injection Hl.
  - destruct (decide (i = obj)) as [->|Hne].
    + rewrite list_lookup_insert_eq in Hl by done. by injection Hl.
    + rewrite list_lookup_insert_ne in Hl by done. apply (Hfree i); [lia|done].
Qed.

(** X6: records are freed in the reverse order of their creation: on a
    well-kept arena, [add_record] followed by [cleanUp] of the slot it
    filled brings the pointer back and leaves every slot of the old list
    as it was. *)
Theorem add_record_cleanUp_restores {T : Target} (e : engine) (r : record) :
  arena_ok e ->
  exists e1 e2, add_record e r = Ok e1 /\ cleanUp e1 (e_pointer e) = Ok e2 /\
    e_pointer e2 = e_pointer e /\
    forall i, (i < length (e_stack e))%nat -> e_stack e2 !! i = e_stack e !! i.
Proof.
  intros Hok.
  destruct (add_record_arena e r Hok) as (e1 & Ha & Hok1 & Hp1 & Hr1 & Hsame & _).
  assert (Hin : (e_pointer e < e_stack_size e1)%nat).
  { destruct Hok1 as (_ & _ & Hle1 & _). lia. }
  destruct (cleanUp_arena e1 (e_pointer e) Hok1 Hin)
    as (e2 & Hc & Hok2 & Hs2 & Hple & Hfree2 & _).
  exists e1, e2. split; [done|]. split; [done|].
  pose proof Hok as (Hlen & _ & Hle & Hfree & Htop).
  assert (Hlt : (e_pointer e <= length (e_stack e1))%nat).
  { destruct Hok1 as (Hlen1 & _). lia. }
  split.
  - destruct Hok2 as (_ & _ & _ & _ & Htop2).
    assert (Hslot : e_stack e2 !! e_pointer e = Some None).
    { rewrite Hs2. apply list_lookup_insert_eq. destruct Hok1 as (Hlen1 & _). lia. }
    destruct (decide (e_pointer e2 <= e_pointer e)%nat) as [Hl2|Hg2].
    + destruct Htop as [H0|Hlive].
      * lia.
      * destruct (decide (e_pointer e2 = e_pointer e)) as [|Hne]; [done|].
        exfalso. destruct (e_pointer e) as [|p] eqn:Ep; [lia|].
        assert (Hp2 : e_stack e2 !! p = Some None) by (apply Hfree2; lia).
        rewrite Hs2, list_lookup_insert_ne in Hp2 by lia.
        rewrite Hsame in Hp2 by lia. simpl in Hlive. rewrite Hp2 in Hlive.
        by destruct Hlive.
    + exfalso. destruct Htop2 as [H0|[x Hx]]; [lia|].
      assert (Hnone : e_stack e2 !! pred (e_pointer e2) = Some None).
      { destruct (decide (pred (e_pointer e2) = e_pointer e)) as [->|Hne]; [done|].
        rewrite Hs2, list_lookup_insert_ne by done. lia. }
      rewrite Hnone in Hx. discriminate.
  - intros i Hi. rewrite Hs2.
    destruct (decide (i = e_pointer e)) as [->|Hne].
    + apply lookup_lt_Some in Hr1 as Hpl.
      rewrite list_lookup_insert_eq by exact Hpl.
      rewrite drop_free_iff in Hfree.
      destruct (e_stack e !! e_pointer e) as [o|] eqn:Eo;
        [|apply lookup_ge_None in Eo; lia].
      by rewrite (Hfree (e_pointer e) o) by (done || lia).
    + rewrite list_lookup_insert_ne by done. apply Hsame; done.
Qed.

(** ** The messages of the records and built-ins *)

Lemma ends_once_app (pre acts : list action) :
  Forall (fun a => is_terminal a = false) pre -> ends_once acts ->
  ends_once (pre ++ acts).
Proof.
  intros Hpre (p & t & -> & Ht & Hp). exists (pre ++ p), t.
  split; [by rewrite app_assoc|]. split; [done|]. by apply Forall_app.
Qed.

Lemma ends_once_single (a : action) : is_terminal a = true -> ends_once [a].
Proof. intros H. exists [], a. split; [done|]. split; [done|constructor]. Qed.

Lemma notifyResult_nonterminal (b : evalnode) (r : context) (n : gnode) (p : option nat) :
  Forall (fun a => is_terminal a = false) (notifyResult b r n false p).
Proof.
  unfold notifyResult.
  destruct (match en_transform b with
            | Some t => Transformations_call t r | None => Some r end);
    repeat constructor.
Qed.

Lemma notifyResult_last (b : evalnode) (r : context) (n : gnode) (p : option nat) :
  ends_once (notifyResult b r n true p).
Proof.
  unfold notifyResult, notifyComplete.
  destruct (match en_transform b with
            | Some t => Transformations_call t r | None => Some r end);
    by apply ends_once_single.
Qed.

Lemma notifyComplete_ends (b : evalnode) (p : option nat) :
  ends_once (notifyComplete b p).
Proof. by apply ends_once_single. Qed.

Lemma notifyResult_dest (b : evalnode) (r : context) (n : gnode) (l : bool) :
  Forall (fun a => dest a = Some (en_parent b)) (notifyResult b r n l None).
Proof.
  unfold notifyResult, notifyComplete.
  destruct (match en_transform b with
            | Some t => Transformations_call t r | None => Some r end);
    [repeat constructor|destruct l; repeat constructor].
Qed.

Lemma notifyComplete_dest (b : evalnode) :
  Forall (fun a => dest a = Some (en_parent b)) (notifyComplete b None).
Proof. repeat constructor. Qed.

Lemma Forall_concat_imap {A} (P : action -> Prop) (f : nat -> A -> list action)
    (l : list A) :
  (forall i x, (i < length l)%nat -> Forall P (f i x)) ->
  Forall P (concat (imap f l)).
Proof.
  revert f. induction l as [|x l IH]; intros f Hf; simpl; [constructor|].
  apply Forall_app. split; [apply Hf; simpl; lia|].
  apply IH. intros i y Hi. apply Hf. simpl. lia.
Qed.

(** The loop [for i, result in enumerate(results): ... is_last =
    (i == len(results) - 1)]. *)
Lemma concat_imap_last {A} (h : A -> bool -> list action) (l : list A) :
  l <> [] ->
  (forall x, Forall (fun a => is_terminal a = false) (h x false)) ->
  (forall x, ends_once (h x true)) ->
  ends_once (concat (imap (fun i x => h x (Nat.eqb i (length l - 1))) l)).
Proof.
  intros Hne Hf Ht. destruct (exists_last Hne) as [l' [x ->]].
  rewrite imap_app, concat_app. simpl. rewrite app_nil_r, length_app. simpl.
  replace (length l' + 1 - 1)%nat with (length l') by lia.
  rewrite Nat.add_0_r, Nat.eqb_refl. apply ends_once_app; [|done].
  apply Forall_concat_imap. intros i y Hi.
  rewrite (proj2 (Nat.eqb_neq i (length l'))) by lia. apply Hf.
Qed.

(** X7: each of the built-in wrappers [BooleanBuiltIn],
    [SimpleBuiltIn] and [SimpleProbabilisticBuiltIn] asks for its
    record's cleanup, ends the answer to its caller exactly once (the
    last message is a result marked last or a complete, no other message
    is), and sends every message to the caller. *)
Theorem builtins_end_once (create_context : context -> context)
    (b : evalnode) (args : context) (ok : bool) (results : list context)
    (presults : list (context * gnode)) :
  let to_caller := Forall (fun a => dest a = Some (en_parent b)) in
  ((boolean_builtin create_context b args ok).1 = true /\
   ends_once (boolean_builtin create_context b args ok).2 /\
   to_caller (boolean_builtin create_context b args ok).2) /\
  ((simple_builtin create_context b results).1 = true /\
   ends_once (simple_builtin create_context b results).2 /\
   to_caller (simple_builtin create_context b results).2) /\
  ((simple_prob_builtin create_context b presults).1 = true /\
   ends_once (simple_prob_builtin create_context b presults).2 /\
   to_caller (simple_prob_builtin create_context b presults).2).
Proof.
  intros to_caller. unfold to_caller. split; [|split].
  - unfold boolean_builtin. destruct ok; simpl.
    + split; [done|]. split; [apply notifyResult_last|apply notifyResult_dest].
    + split; [done|]. split; [apply notifyComplete_ends|apply notifyComplete_dest].
  - destruct (decide (results = [])) as [->|Hne].
    + simpl. split; [done|]. split; [apply notifyComplete_ends|apply notifyComplete_dest].
    + assert (Hs : simple_builtin create_context b results =
        (true, concat (imap (fun i r => notifyResult b (create_context r) NODE_TRUE
                         (Nat.eqb i (length results - 1)) None) results)))
        by (destruct results; [done|reflexivity]).
      rewrite Hs. split; [done|]. split.
      * apply (concat_imap_last (fun x l => notifyResult b (create_context x) NODE_TRUE l None));
          [done| |]; intros x; [apply notifyResult_nonterminal|apply notifyResult_last].
      * apply Forall_concat_imap. intros i x _. apply notifyResult_dest.
  - destruct (decide (presults = [])) as [->|Hne].
    + simpl. split; [done|]. split; [apply notifyComplete_ends|apply notifyComplete_dest].
    + assert (Hs : simple_prob_builtin create_context b presults =
        (true, concat (imap (fun i rn => notifyResult b (create_context rn.1) rn.2
                         (Nat.eqb i (length presults - 1)) None) presults)))
        by (destruct presults; [done|reflexivity]).
      rewrite Hs. split; [done|]. split.
      * apply (concat_imap_last (fun x l => notifyResult b (create_context x.1) x.2 l None));
          [done| |]; intros x; [apply notifyResult_nonterminal|apply notifyResult_last].
      * apply Forall_concat_imap. intros i x _. apply notifyResult_dest.
Qed.

(** X8: after the sub-call of [call/N], [builtin_call] succeeds whenever
    the called term is an atom or a compound and every solution carries
    its tuple: it asks for the record's cleanup, forwards each solution
    as a result never marked last, and ends with a [complete] to the
    caller. *)
Theorem builtin_call_notify_protocol (create_context : context -> context)
    (b : evalnode) (t : term) (results : list (option context * gnode)) :
  (forall rn, rn ∈ results -> is_Some rn.1) ->
  (exists f, t = Cst f) \/ (exists f a, t = App f a) ->
  exists acts, builtin_call_notify create_context b t results = Ok (true, acts) /\
    ends_once acts /\ last acts = Some (AComplete (en_parent b) (en_identifier b)) /\
    Forall (fun a => dest a = Some (en_parent b)) acts.
Proof.
  intros Hsome Ht. unfold builtin_call_notify.
  assert (Hloop : forall n, exists acts,
             call_results_notify create_context b n t results = Ok acts /\
             Forall (fun a => is_terminal a = false) acts /\
             Forall (fun a => dest a = Some (en_parent b)) acts).
  { intros n. induction results as [|[r node] l IH]; simpl.
    - exists []. done.
    - destruct r as [r|].
      + destruct IH as (acts & Hl & Hnt & Hd).
        { intros rn Hin. apply Hsome. by right. }
        assert (exists t1, with_args t (firstn n r) = Ok t1) as [t1 Ht1].
        { destruct Ht as [[f ->]|[f [a ->]]]; simpl; by eexists. }
        rewrite Ht1, Hl. eexists. split; [reflexivity|].
        split; apply Forall_app; (split; [|done]);
          [apply notifyResult_nonterminal|apply notifyResult_dest].
      + exfalso. destruct (Hsome (None, node)) as [? Hx]; [left|done]. }
  destruct (Hloop (length (term_args t))) as (acts & Hl & Hnt & Hd).
  rewrite Hl. eexists. split; [reflexivity|]. split.
  - apply ends_once_app; [done|apply notifyComplete_ends].
  - split; [by rewrite last_app|]. apply Forall_app. split; [done|apply notifyComplete_dest].
Qed.

(** The loop of [eval_define] over cached results, from the top. *)
Lemma define_cached_loop_ends (parent : option nat) (identifier : ident)
    (transform : option Transformations) (l : list (context * rsval)) :
  l <> [] -> Forall (fun rv => exists n, rv.2 = One n) l ->
  exists acts, define_cached_loop parent identifier transform (length l) l = Ok acts /\
    ends_once acts /\ Forall (fun a => dest a = Some parent) acts.
Proof.
  induction l as [|[r v] l IH]; intros Hne HF; [done|].
  apply Forall_cons in HF as [[n Hv] HF]. simpl in Hv. subst v.
  cbn [define_cached_loop length entry_node]. replace (S (length l) - 1)%nat with (length l) by lia.
  destruct l as [|y l].
  - cbn [length define_cached_loop Nat.eqb]. eexists. split; [reflexivity|].
    rewrite app_nil_r.
    destruct (bool_decide (n <> NODE_FALSE)); [destruct (apply_transform transform r)|];
      (split; [by apply ends_once_single|repeat constructor]).
  - destruct IH as (acts & Hl & Hend & Hd); [done|done|]. rewrite Hl.
    change (Nat.eqb (length (y :: l)) 0) with false.
    eexists. split; [reflexivity|].
    destruct (bool_decide (n <> NODE_FALSE)); [destruct (apply_transform transform r)|];
      simpl; (split; [|repeat constructor; done]);
      [apply (ends_once_app [_])|apply (ends_once_app [])|apply (ends_once_app [])];
      repeat constructor; done.
Qed.

(** X9: [eval_define] answering a goal from the cache never fails on
    collapsed entries; it ends the answer to the caller exactly once
    (results marked last only on the last entry, a [complete] when the
    last entry is dropped or there is none), every message going to the
    caller. *)
Theorem eval_define_cached_protocol (parent : option nat) (identifier : ident)
    (transform : option Transformations) (results : list (context * rsval)) :
  Forall (fun rv => exists n, rv.2 = One n) results ->
  exists acts, eval_define_cached parent identifier transform results = Ok acts /\
    ends_once acts /\ Forall (fun a => dest a = Some parent) acts.
Proof.
  intros HF. unfold eval_define_cached. destruct results as [|rv l] eqn:Er.
  - eexists. split; [reflexivity|]. split; [by apply ends_once_single|repeat constructor].
  - rewrite <- Er. apply define_cached_loop_ends; [by rewrite Er|by rewrite <- Er in HF].
Qed.

(** ** Result sets and [EvalOr] *)

Lemma rs_find_none_iff (r : context) (l : list (context * rsval)) :
  rs_find r l = None <-> r ∉ map fst l.
Proof.
  induction l as [|[r' v] l IH]; simpl.
  - split; [intros _ H; by apply elem_of_nil in H|done].
  - rewrite elem_of_cons. destruct (terms_eqb_spec r r') as [->|Hne].
    + split; [done|]. intros H. exfalso. apply H. by left.
    + rewrite IH. split; intros H; [intros [?|?]; [done|by apply H]|intros Hin; apply H; by right].
Qed.

Lemma rs_find_app_last (r r' : context) (v : rsval) (l : list (context * rsval)) :
  rs_find r (l ++ [(r', v)]) =
  match rs_find r l with
  | Some x => Some x
  | None => if terms_eqb r r' then Some v else None
  end.
Proof.
  induction l as [|[r0 v0] l IH]; simpl; [by destruct (terms_eqb r r')|].
  by destruct (terms_eqb r r0).
Qed.

Lemma rs_append_at_spec (r : context) (node : gnode) (ns : list gnode)
    (l : list (context * rsval)) :
  rs_find r l = Some (Nodes ns) ->
  exists l', rs_append_at r node l = Ok l' /\ map fst l' = map fst l /\
    rs_find r l' = Some (Nodes (ns ++ [node])) /\
    (forall r', r' <> r -> rs_find r' l' = rs_find r' l) /\
    (forall rv, rv ∈ l' -> rv ∈ l \/ rv.2 = Nodes (ns ++ [node])).
Proof.
  induction l as [|[r0 v0] l IH]; simpl; [done|]. intros Hf.
  destruct (terms_eqb_spec r r0) as [<-|Hne].
  - injection Hf as ->. eexists. split; [reflexivity|]. simpl.
    rewrite terms_eqb_refl. split; [done|]. split; [done|]. split.
    + intros r' Hr'. destruct (terms_eqb_spec r' r); done.
    + intros rv Hin. apply elem_of_cons in Hin as [->|Hin]; [by right|].
      left. by right.
  - destruct (IH Hf) as (l' & Ha & Hk & Hr & Ho & Hin). rewrite Ha.
    eexists. split; [reflexivity|]. simpl. rewrite Hk.
    destruct (terms_eqb_spec r r0) as [|_]; [done|]. split; [done|]. split; [done|].
    split.
    + intros r' Hr'. by rewrite Ho.
    + intros rv Hrv. apply elem_of_cons in Hrv as [->|Hrv].
      * left. left.
      * destruct (Hin rv Hrv) as [H|H]; [left; by right|by right].
Qed.

Lemma rs_find_in (r : context) (l : list (context * rsval)) (v : rsval) :
  rs_find r l = Some v -> exists r', (r', v) ∈ l.
Proof.
  induction l as [|[r0 v0] l IH]; simpl; [done|].
  destruct (terms_eqb r r0).
  - intros [= ->]. exists r0. left.
  - intros H. destruct (IH H) as [r' Hin]. exists r'. by right.
Qed.

(** X10: [ResultSet.__setitem__] on a consistent result set: a new tuple
    is appended as a new key (a list of one node before the collapse, the
    node itself after it); a known tuple gets the node appended to its
    list before the collapse and raises [AssertionError] after it; the
    other tuples keep their entries, and the set stays consistent. *)
Theorem rs_set_spec (rs : ResultSet) (r : context) (node : gnode) :
  rs_consistent rs ->
  (rs_get rs r = None ->
   exists rs', rs_set rs r node = Ok rs' /\ rs_consistent rs' /\
     rs_collapsed rs' = rs_collapsed rs /\
     rs_get rs' r = Some (if rs_collapsed rs then One node else Nodes [node]) /\
     (forall r', r' <> r -> rs_get rs' r' = rs_get rs r') /\
     (r ∉ rs_keys rs) /\ rs_keys rs' = rs_keys rs ++ [r]) /\
  (forall v, rs_get rs r = Some v -> rs_collapsed rs = false ->
   exists ns rs', v = Nodes ns /\ rs_set rs r node = Ok rs' /\ rs_consistent rs' /\
     rs_collapsed rs' = false /\ rs_get rs' r = Some (Nodes (ns ++ [node])) /\
     (forall r', r' <> r -> rs_get rs' r' = rs_get rs r') /\
     rs_keys rs' = rs_keys rs) /\
  (forall v, rs_get rs r = Some v -> rs_collapsed rs = true ->
   rs_set rs r node = Err AssertionError).
Proof.
  intros Hc. unfold rs_set. split; [|split].
  - intros Hn. rewrite Hn. eexists. split; [reflexivity|]. unfold rs_consistent, rs_get, rs_keys in *.
    cbn [rs_results rs_collapsed]. split.
    + apply Forall_app. split; [done|]. constructor; [|constructor].
      simpl. by destruct (rs_collapsed rs).
    + split; [done|]. rewrite rs_find_app_last, Hn, terms_eqb_refl. split; [done|].
      split.
      * intros r' Hr'. rewrite rs_find_app_last.
        destruct (rs_find r' (rs_results rs)); [done|].
        by destruct (terms_eqb_spec r' r).
      * split; [by apply rs_find_none_iff|]. by rewrite map_app.
  - intros v Hv Hnc. rewrite Hv, Hnc.
    unfold rs_consistent, rs_get, rs_keys in *.
    destruct (rs_find_in r (rs_results rs) v Hv) as [r0 Hin].
    rewrite Hnc in Hc. rewrite Forall_forall in Hc.
    pose proof (Hc _ Hin) as Hshape. simpl in Hshape.
    destruct v as [ns|n]; [|done].
    destruct (rs_append_at_spec r node ns (rs_results rs) Hv)
      as (l' & Ha & Hk & Hr & Ho & Hin').
    rewrite Ha. exists ns. eexists. split; [done|]. split; [reflexivity|].
    cbn [rs_results rs_collapsed]. split.
    + rewrite Forall_forall. intros rv Hrv.
      destruct (Hin' rv Hrv) as [H|H]; [apply (Hc rv H)|by rewrite H].
    + done.
  - intros v Hv Hcol. by rewrite Hv, Hcol.
Qed.

Lemma collapse_entries_ok {T : Target}
    (f : tstate -> context -> rsval -> res (tstate * rsval))
    (t : tstate) (l : list (context * rsval)) :
  (forall t r ns, exists t' n, f t r (Nodes ns) = Ok (t', One n)) ->
  Forall (fun rv => exists ns, rv.2 = Nodes ns) l ->
  exists t' l', collapse_entries f t l = Ok (t', l') /\ map fst l' = map fst l /\
    Forall (fun rv => exists n, rv.2 = One n) l'.
Proof.
  intros Hf. revert t. induction l as [|[r v] l IH]; intros t HF; simpl.
  - do 2 eexists. split; [reflexivity|]. done.
  - apply Forall_cons in HF as [[ns Hv] HF]. simpl in Hv. subst v.
    destruct (Hf t r ns) as (t1 & n & ->).
    destruct (IH t1 HF) as (t2 & l2 & -> & Hk & HO).
    do 2 eexists. split; [reflexivity|]. simpl. rewrite Hk. split; [done|].
    constructor; [by eexists|done].
Qed.

Lemma rs_consistent_shape (rs : ResultSet) :
  rs_consistent rs ->
  (rs_collapsed rs = false -> Forall (fun rv => exists ns, rv.2 = Nodes ns) (rs_results rs)) /\
  (rs_collapsed rs = true -> Forall (fun rv => exists n, rv.2 = One n) (rs_results rs)).
Proof.
  unfold rs_consistent. intros Hc. split; intros Hcol; rewrite Hcol in Hc;
    (eapply Forall_impl; [exact Hc|]); intros [r [ns|n]]; simpl; intros H;
    first [done|by eexists].
Qed.

(** X11: [EvalOr.flushBuffer] on a consistent result set never fails; it
    keeps the tuples in their order and leaves one ground node per tuple
    in a collapsed, consistent set; on a set already collapsed it does
    nothing and makes no call on the target. *)
Theorem or_flushBuffer_spec {T : Target} (t : tstate) (rs : ResultSet) (cycle : bool) :
  rs_consistent rs ->
  exists t1 rs1, or_flushBuffer t rs cycle = Ok (t1, rs1) /\
    rs_collapsed rs1 = true /\ rs_consistent rs1 /\ rs_keys rs1 = rs_keys rs /\
    Forall (fun rv => exists n, rv.2 = One n) (rs_results rs1) /\
    (rs_collapsed rs = true -> t1 = t /\ rs1 = rs).
Proof.
  intros Hc. destruct (rs_consistent_shape rs Hc) as [Hnodes Hone].
  unfold or_flushBuffer, rs_collapse. destruct (rs_collapsed rs) eqn:Ecol.
  - do 2 eexists. split; [reflexivity|]. split; [done|]. split; [done|].
    split; [done|]. split; [by apply Hone|done].
  - destruct (collapse_entries_ok
                (fun t _ v => ns <-? entry_nodes v ;;
                              let '(t1, n) := t_addOr t ns (negb cycle) in Ok (t1, One n))
                t (rs_results rs)) as (t1 & l1 & -> & Hk & HO).
    { intros t' r ns. simpl. destruct (t_addOr t' ns (negb cycle)) as [t2 n].
      by do 2 eexists. }
    { by apply Hnodes. }
    do 2 eexists. split; [reflexivity|]. split; [done|]. split.
    + unfold rs_consistent. cbn [rs_results rs_collapsed].
      eapply Forall_impl; [exact HO|]. intros [r v] [n Hv]. simpl in Hv. by subst v.
    + split; [done|]. split; [done|done].
Qed.

Lemma notify_all_ok (b : evalnode) (l : list (context * rsval)) :
  Forall (fun rv => exists n, rv.2 = One n) l ->
  exists acts, notify_all b l = Ok acts /\
    Forall (fun a => is_terminal a = false) acts /\
    Forall (fun a => dest a = Some (en_parent b)) acts /\
    (length acts <= length l)%nat.
Proof.
  induction l as [|[r v] l IH]; intros HF; simpl.
  - exists []. split; [done|]. split; [constructor|]. split; [constructor|]. simpl; lia.
  - apply Forall_cons in HF as [[n Hv] HF]. simpl in Hv. subst v. simpl.
    destruct (IH HF) as (acts & -> & Hnt & Hd & Hl).
    eexists. split; [reflexivity|]. split; [|split].
    + apply Forall_app. split; [apply notifyResult_nonterminal|done].
    + apply Forall_app. split; [apply notifyResult_dest|done].
    + rewrite length_app. unfold notifyResult.
      destruct (match en_transform b with
                | Some t => Transformations_call t r | None => Some r end);
        simpl; lia.
Qed.

Lemma notify_all_keys (b : evalnode) (l : list (context * rsval)) :
  Forall (fun rv => exists n, rv.2 = One n) l ->
  exists ns, length ns = length l /\
    notify_all b l = Ok (concat (zip_with (fun r n => notifyResult b r n false None)
                                          (map fst l) ns)).
Proof.
  induction l as [|[r v] l IH]; intros HF; simpl.
  - exists []. done.
  - apply Forall_cons in HF as [[n Hv] HF]. simpl in Hv. subst v. simpl.
    destruct (IH HF) as (ns & Hl & ->). exists (n :: ns). simpl.
    split; [by rewrite Hl|reflexivity].
Qed.

(** X12: [EvalOr.complete] on a consistent result set never fails. Before
    the last child completes it only counts down. On the last one it
    asks for the cleanup, collapses the buffer, and ends the answer to
    the caller exactly once with a [complete]. On the cycle the
    [complete] is all it sends; off the cycle it first sends, for each
    buffered tuple in the set's order, the [notifyResult] of that tuple
    with its collapsed node, not marked last (at most one message each,
    none when the transform drops it). *)
Theorem or_complete_protocol {T : Target} (t : tstate) (b : evalnode)
    (rs : ResultSet) (tc : Z) :
  rs_consistent rs ->
  exists t1 rs1 acts,
    or_complete t b rs tc = Ok (t1, rs1, tc - 1, bool_decide (tc = 1), acts) /\
    (tc <> 1 -> t1 = t /\ rs1 = rs /\ acts = []) /\
    (tc = 1 -> rs_collapsed rs1 = true /\ rs_keys rs1 = rs_keys rs /\
       ends_once acts /\ last acts = Some (AComplete (en_parent b) (en_identifier b)) /\
       Forall (fun a => dest a = Some (en_parent b)) acts /\
       (length acts <= S (length (rs_results rs)))%nat /\
       (en_on_cycle b = true -> acts = notifyComplete b None) /\
       (en_on_cycle b = false ->
          exists ns, length ns = length (rs_keys rs) /\
            acts = concat (zip_with (fun r n => notifyResult b r n false None)
                                    (rs_keys rs) ns) ++ notifyComplete b None)).
Proof.
  intros Hc. unfold or_complete. destruct (Z.eqb_spec (tc - 1) 0) as [H1|H1].
  - assert (Htc : tc = 1) by lia. rewrite (bool_decide_eq_true_2 _ Htc).
    destruct (or_flushBuffer_spec t rs false Hc)
      as (t1 & rs1 & -> & Hcol & Hc1 & Hk & HO & _).
    assert (Hlen : length (rs_results rs1) = length (rs_results rs)).
    { unfold rs_keys in Hk. rewrite <- (length_map fst (rs_results rs1)), Hk.
      apply length_map. }
    destruct (en_on_cycle b) eqn:Ecyc.
    + do 3 eexists. split; [reflexivity|]. split; [lia|]. intros _.
      split; [done|]. split; [done|]. split; [apply notifyComplete_ends|].
      split; [done|]. split; [apply notifyComplete_dest|]. split; [simpl; lia|].
      split; [done|]. intros; congruence.
    + destruct (notify_all_ok b (rs_results rs1) HO) as (acts & Ha & Hnt & Hd & Hl).
      destruct (notify_all_keys b (rs_results rs1) HO) as (ns & Hns & Ha').
      rewrite Ha. do 3 eexists. split; [reflexivity|]. split; [lia|]. intros _.
      split; [done|]. split; [done|].
      split; [apply ends_once_app; [done|apply notifyComplete_ends]|].
      split; [by rewrite last_app|].
      split; [apply Forall_app; split; [done|apply notifyComplete_dest]|].
      split; [rewrite length_app; simpl; lia|]. split; [done|].
      intros _. exists ns. rewrite Ha' in Ha. injection Ha as <-.
      rewrite <- Hk. unfold rs_keys. rewrite length_map. split; done.
  - assert (Htc : tc <> 1) by lia. rewrite (bool_decide_eq_false_2 _ Htc).
    do 3 eexists. split; [reflexivity|]. split; [done|]. intros; lia.
Qed.

(** ** [EvalAnd]'s counter *)

Lemma and_pending_succ (fr : bool) (o : nat) :
  and_pending fr (S o) = and_pending fr o + 1.
Proof. unfold and_pending. lia. Qed.

Lemma and_complete_step (b : evalnode) (fr : bool) (o : nat) :
  and_complete b (and_pending fr o + 1) =
  Ok (and_pending fr o, bool_decide (fr = false /\ o = 0%nat),
      if bool_decide (fr = false /\ o = 0%nat) then notifyComplete b None else []).
Proof.
  unfold and_complete.
  replace (and_pending fr o + 1 - 1) with (and_pending fr o) by lia.
  unfold and_pending. destruct fr, o as [|o].
  - rewrite bool_decide_eq_false_2 by naive_solver. reflexivity.
  - rewrite bool_decide_eq_false_2 by naive_solver.
    destruct (Z.eqb_spec (1 + Z.of_nat (S o)) 0); [lia|].
    destruct (Z.ltb_spec 0 (1 + Z.of_nat (S o))); [reflexivity|lia].
  - rewrite bool_decide_eq_true_2 by done. reflexivity.
  - rewrite bool_decide_eq_false_2 by naive_solver.
    destruct (Z.eqb_spec (0 + Z.of_nat (S o)) 0); [lia|].
    destruct (Z.ltb_spec 0 (0 + Z.of_nat (S o))); [reflexivity|lia].
Qed.

(** X13: while the first conjunct runs, [to_complete] counts it and the
    pending calls of the second conjunct. A result of the first conjunct
    then never raises and never asks for the cleanup (the [complete()]
    whose answer [newResult] drops never reaches zero): it calls the
    second conjunct with the result as context and the result's node as
    identifier, and the counter counts the new call, and the first
    conjunct only if it has more results. *)
Theorem and_first_result_pending {T : Target}
    (t_addAnd : tstate -> gnode -> gnode -> tstate * gnode) (t : tstate)
    (b : evalnode) (children : list Z) (c1 : Z) (out : nat) (result : context)
    (node : gnode) (is_last : bool) :
  children !! 1%nat = Some c1 ->
  and_newResult t_addAnd t b children (and_pending true out) result node None is_last =
  Ok (t, and_pending (negb is_last) (S out), false,
      [ACall c1 {| kw_parent := Some (en_pointer b); kw_identifier := node;
                   kw_context := result; kw_transform := None;
                   kw_call_origin := None |}]).
Proof.
  intros Hc. unfold and_newResult, and_second_call.
  rewrite Hc. destruct is_last; cbn [negb].
  - rewrite <- and_pending_succ. rewrite (and_pending_succ true out).
    replace (and_pending true out + 1) with (and_pending false (S out) + 1)
      by (unfold and_pending; lia).
    rewrite and_complete_step. reflexivity.
  - rewrite <- and_pending_succ. reflexivity.
Qed.

(** X14: a result of a pending call of the second conjunct never raises:
    it makes the And node of the two ground nodes, counts the call as
    done when the result is its last, and forwards the result to the
    caller, marked last and with the cleanup exactly when no conjunct is
    left running. *)
Theorem and_second_result_pending {T : Target}
    (t_addAnd : tstate -> gnode -> gnode -> tstate * gnode) (t : tstate)
    (b : evalnode) (children : list Z) (fr : bool) (out : nat)
    (result : context) (node : gnode) (source : ident) (is_last : bool) :
  source <> None -> (0 < out)%nat ->
  let out' := if is_last then pred out else out in
  let all_complete := bool_decide (fr = false /\ out' = 0%nat) in
  and_newResult t_addAnd t b children (and_pending fr out) result node source is_last =
  Ok ((t_addAnd t source node).1, and_pending fr out', all_complete,
      notifyResult b result (t_addAnd t source node).2 all_complete None).
Proof.
  intros Hs Hout out' all_complete. subst out' all_complete.
  destruct source as [s|]; [|done]. unfold and_newResult.
  destruct (t_addAnd t (Some s) node) as [t1 tn]. cbn [fst snd].
  destruct out as [|o]; [lia|]. destruct is_last.
  - rewrite and_pending_succ, and_complete_step. cbn [pred].
    case_bool_decide; reflexivity.
  - rewrite bool_decide_eq_false_2 by lia. reflexivity.
Qed.

(** X15: a [complete] that retires one unit of the conjunction's pending
    work (the first conjunct, or one call of the second) never raises;
    it asks for the cleanup, and sends the caller a [complete], exactly
    when no conjunct is left running. *)
Theorem and_complete_pending (b : evalnode) (fr : bool) (out : nat)
    (fr' : bool) (out' : nat) :
  and_pending fr out = and_pending fr' out' + 1 ->
  and_complete b (and_pending fr out) =
  Ok (and_pending fr' out', bool_decide (fr' = false /\ out' = 0%nat),
      if bool_decide (fr' = false /\ out' = 0%nat) then notifyComplete b None else []).
Proof. intros Hp. rewrite Hp. apply and_complete_step. Qed.

(** ** [EvalDefine.complete] and the cache *)

Lemma key_eqb_refl (k : key) : key_eqb k k = true.
Proof. by destruct (key_eqb_spec k k). Qed.

Lemma notify_countdown_ends {T : Target} (b : evalnode) (l : list (context * rsval))
    (acts : list action) :
  l <> [] -> notify_countdown b (length l) l = Ok acts ->
  ends_once acts /\ Forall (fun a => dest a = Some (en_parent b)) acts.
Proof.
  revert acts. induction l as [|[r v] l IH]; intros acts Hne H; [done|].
  cbn [notify_countdown length] in H.
  destruct (entry_node v) as [n|]; [|done].
  replace (S (length l) - 1)%nat with (length l) in H by lia.
  destruct (notify_countdown b (length l) l) as [rest|] eqn:Er; [|done].
  injection H as <-.
  destruct l as [|x l'].
  - injection Er as <-. rewrite app_nil_r. change (Nat.eqb (length []) 0) with true.
    split; [apply notifyResult_last|apply notifyResult_dest].
  - destruct (IH rest ltac:(done) eq_refl) as [He Hd].
    change (Nat.eqb (length (x :: l')) 0) with false.
    split; [apply ends_once_app; [apply notifyResult_nonterminal|done]|].
    apply Forall_app. split; [apply notifyResult_dest|done].
Qed.

Lemma define_complete_last {T : Target} (e : engine) (b : evalnode)
    (d : define_fields) (e' : engine) (d' : define_fields) (cleanup : bool)
    (acts : list action) :
  d_is_cycle_child d = false -> d_to_complete d = 1 -> en_on_cycle b = false ->
  is_dont_cache (d_functor d, en_context b) = false ->
  is_ground (en_context b) = false ->
  define_complete e b d = Ok (e', d', cleanup, acts) ->
  cleanup = true /\ d_to_complete d' = 0 /\ rs_collapsed (d_results d') = true /\
  getEvalNode (e_cache e') (d_functor d, en_context b) = None /\
  dc_get (e_cache e') (d_functor d, en_context b) = Some (rs_results (d_results d')) /\
  match rs_results (d_results d') with
  | [] => acts = notifyComplete b None
  | l => notify_countdown b (length l) l = Ok acts
  end.
Proof.
  intros Hcc Htc Hoc Hnc Hng H.
  unfold define_complete in H. rewrite Hcc, Htc in H.
  change (1 - 1 =? 0) with true in H. cbv zeta iota in H.
  destruct (define_flushBuffer e (d_functor d) (d_results d) false)
    as [[t1 rs1]|] eqn:Ef; [|done].
  assert (Hcol : rs_collapsed rs1 = true).
  { unfold define_flushBuffer, rs_collapse in Ef.
    destruct (rs_collapsed (d_results d)) eqn:E0.
    - injection Ef as _ <-. done.
    - destruct (collapse_entries _ _ _) as [[t' l]|]; [|done].
      injection Ef as _ <-. done. }
  unfold deactivate, dc_setitem in H. rewrite Hnc in H. cbn iota in H.
  rewrite Hng in H. unfold nd_del in H. cbn [dc_active dc_ground dc_non_ground] in H.
  destruct (dc_active (e_cache e) (d_functor d, en_context b)) as [p|] eqn:Ea;
    [|simpl in H; discriminate].
  rewrite Hoc in H.
  assert (Hc : forall acts0,
    Ok (with_cache (with_target e t1)
          {| dc_non_ground := nd_set (dc_non_ground (e_cache e)) (d_functor d, en_context b) rs1;
             dc_ground := store_ground (dc_ground (e_cache e)) (d_functor d) rs1 (rs_keys rs1);
             dc_active := fun k' => if key_eqb (d_functor d, en_context b) k' then None
                                    else dc_active (e_cache e) k' |},
        with_results (with_to_complete d (1 - 1)) rs1, true, acts0)
    = Ok (e', d', cleanup, acts) ->
    cleanup = true /\ d_to_complete d' = 0 /\ rs_collapsed (d_results d') = true /\
    getEvalNode (e_cache e') (d_functor d, en_context b) = None /\
    dc_get (e_cache e') (d_functor d, en_context b) = Some (rs_results (d_results d')) /\
    d_results d' = rs1 /\ acts0 = acts).
  { intros acts0 Hok. injection Hok as <- <- <- <-.
    split; [done|]. split; [done|]. split; [done|].
    split; [by cbn; rewrite key_eqb_refl|].
    split; [|done].
    unfold dc_get, dc_getitem. cbn. rewrite Hng. unfold nd_set. by rewrite key_eqb_refl. }
  destruct (rs_results rs1) as [|x l] eqn:Er.
  - destruct (Hc _ H) as (? & ? & ? & ? & ? & Hd & <-). rewrite Hd in *.
    repeat (split; [done|]). by rewrite Er.
  - destruct (notify_countdown b (length (x :: l)) (x :: l)) as [acts0|] eqn:En; [|done].
    destruct (Hc _ H) as (? & ? & ? & ? & ? & Hd & <-). rewrite Hd in *.
    repeat (split; [done|]). by rewrite Er.
Qed.

Lemma notify_countdown_cached {T : Target} (b : evalnode) (n : nat)
    (l : list (context * rsval)) :
  en_transform b = None -> Forall (fun rv => rv.2 <> One NODE_FALSE) l ->
  notify_countdown b n l = define_cached_loop (en_parent b) (en_identifier b) None n l.
Proof.
  intros Ht. revert n. induction l as [|[r v] l IH]; intros n HF; [done|].
  inversion HF as [|? ? Hv HF']; subst.
  cbn [notify_countdown define_cached_loop].
  destruct v as [ns|node]; [done|]. cbn [entry_node]. rewrite IH by done.
  destruct (define_cached_loop _ _ _ _ l); [|done].
  rewrite bool_decide_eq_true_2 by (intros ->; done).
  unfold notifyResult. rewrite Ht. done.
Qed.

Lemma dc_setitem_active (c : DefineCache) (goal : key) (rs : ResultSet) :
  dc_active (dc_setitem c goal rs) = dc_active c.
Proof.
  unfold dc_setitem. destruct (is_dont_cache goal); [done|].
  destruct goal as [f a]. destruct (is_ground a); [|done].
  destruct (rs_keys rs); [done|]. done.
Qed.

(** X16: the last [complete] of a call that is neither a cycle child nor on
    a cycle, whose context is not ground and whose functor does not
    start with [_nocache_], asks for the cleanup, collapses the results,
    stores them in the cache under the call and deactivates the call,
    and sends the caller a batch that ends its answer once. *)
Theorem define_complete_final {T : Target} (e : engine) (b : evalnode)
    (d : define_fields) (e' : engine) (d' : define_fields) (cleanup : bool)
    (acts : list action) :
  d_is_cycle_child d = false -> d_to_complete d = 1 -> en_on_cycle b = false ->
  is_dont_cache (d_functor d, en_context b) = false ->
  is_ground (en_context b) = false ->
  define_complete e b d = Ok (e', d', cleanup, acts) ->
  let goal := (d_functor d, en_context b) in
  cleanup = true /\ d_to_complete d' = 0 /\ rs_collapsed (d_results d') = true /\
  getEvalNode (e_cache e') goal = None /\
  dc_get (e_cache e') goal = Some (rs_results (d_results d')) /\
  ends_once acts /\ Forall (fun a => dest a = Some (en_parent b)) acts.
Proof.
  intros Hcc Htc Hoc Hnc Hng H goal. subst goal.
  destruct (define_complete_last e b d e' d' cleanup acts Hcc Htc Hoc Hnc Hng H)
    as (? & ? & ? & ? & ? & Ha).
  repeat (split; [done|]).
  destruct (rs_results (d_results d')) as [|x l] eqn:Er.
  - subst acts. split; [apply notifyComplete_ends|apply notifyComplete_dest].
  - by apply (notify_countdown_ends b (x :: l)).
Qed.

(** X17: under the same conditions, with no transformation on the call and
    no result whose node is [NODE_FALSE], a later evaluation of the goal
    that finds it in the cache ([eval_define] with the cached results)
    sends the caller exactly the batch that the last [complete] sent. *)
Theorem define_complete_replays {T : Target} (e : engine) (b : evalnode)
    (d : define_fields) (e' : engine) (d' : define_fields) (cleanup : bool)
    (acts : list action) :
  d_is_cycle_child d = false -> d_to_complete d = 1 -> en_on_cycle b = false ->
  is_dont_cache (d_functor d, en_context b) = false ->
  is_ground (en_context b) = false -> en_transform b = None ->
  define_complete e b d = Ok (e', d', cleanup, acts) ->
  Forall (fun rv => rv.2 <> One NODE_FALSE) (rs_results (d_results d')) ->
  exists cached, dc_get (e_cache e') (d_functor d, en_context b) = Some cached /\
    eval_define_cached (en_parent b) (en_identifier b) None cached = Ok acts.
Proof.
  intros Hcc Htc Hoc Hnc Hng Ht H HF.
  destruct (define_complete_last e b d e' d' cleanup acts Hcc Htc Hoc Hnc Hng H)
    as (_ & _ & _ & _ & Hg & Ha).
  exists (rs_results (d_results d')). split; [done|].
  unfold eval_define_cached.
  destruct (rs_results (d_results d')) as [|x l] eqn:Er.
  - by subst acts.
  - rewrite <- Ha. symmetry. by apply notify_countdown_cached.
Qed.

(** X18: a [complete] that brings the counter of a call to zero when the
    call is no longer active in the cache raises [KeyError] (from
    [deactivate]) once the results are flushed. *)
Theorem define_complete_inactive {T : Target} (e : engine) (b : evalnode)
    (d : define_fields) (t1 : tstate) (rs1 : ResultSet) :
  d_is_cycle_child d = false -> d_to_complete d = 1 ->
  define_flushBuffer e (d_functor d) (d_results d) false = Ok (t1, rs1) ->
  getEvalNode (e_cache e) (d_functor d, en_context b) = None ->
  define_complete e b d = Err KeyError.
Proof.
  intros Hcc Htc Hf Ha. unfold define_complete. rewrite Hcc, Htc.
  change (1 - 1 =? 0) with true. cbv zeta iota. rewrite Hf.
  unfold deactivate, nd_del. rewrite dc_setitem_active. unfold getEvalNode in Ha.
  by rewrite Ha.
Qed.

(** ** [eval_fact] *)

(** X19: [eval_fact] answers with exactly one message, to the caller, and
    it ends the answer: a result marked last when the fact's arguments
    unify with the call's and the target gives a node other than
    [NODE_FALSE], a [complete] otherwise. When the arguments do not
    unify, the target is left as it was. *)
Theorem eval_fact_single_answer {T : Target} (create_context : context -> context)
    (prob : Type) (t_addAtom : tstate -> Z -> prob -> tstate * gnode)
    (unify : term -> term -> bool) (t : tstate) (parent : option nat)
    (node_id : Z) (args : list term) (probability : prob) (ctx : context)
    (identifier : ident) :
  let '(t', acts) := eval_fact create_context prob t_addAtom unify t parent
                       node_id args probability ctx identifier in
  (exists a, acts = [a] /\ is_terminal a = true /\ dest a = Some parent) /\
  (forallb (fun ab => unify ab.1 ab.2) (zip args ctx) = false ->
   t' = t /\ acts = [AComplete parent identifier]).
Proof.
  unfold eval_fact.
  destruct (forallb (fun ab => unify ab.1 ab.2) (zip args ctx)).
  - destruct (t_addAtom t node_id probability) as [t1 n].
    case_bool_decide; (split; [by eexists|done]).
  - split; [by eexists|done].
Qed.

(* ------------------------------------------------------------------ *)
(** ** Instances of the properties at concrete inputs *)

Lemma ndt_setitem_refines_witness :
  ndt_wf (V:=Z) [] /\ (forall k', ndt_lookup (V:=Z) [] k' = NestedDict_new k') /\
  exists base', ndt_setitem [] ex_nd_key 1 = Ok base' /\ ndt_wf base' /\
    forall k', ndt_lookup base' k' = nd_set NestedDict_new ex_nd_key 1 k'.
Proof.
  split; [split; constructor|]. split; [intros k'; reflexivity|].
  apply ndt_setitem_refines; [split; constructor|intros k'; reflexivity].
Defined.

Lemma ndt_delitem_refines_witness :
  ndt_wf ex_nd_base /\
  (forall k', ndt_lookup ex_nd_base k' = nd_set NestedDict_new ex_nd_key 1 k') /\
  match ndt_delitem ex_nd_base ex_nd_key,
        nd_del (nd_set NestedDict_new ex_nd_key 1) ex_nd_key with
  | Ok base', Ok d' => ndt_wf base' /\ forall k', ndt_lookup base' k' = d' k'
  | Err x, Err y => x = KeyError /\ y = KeyError
  | _, _ => False
  end.
Proof.
  assert (Hwf : ndt_wf ex_nd_base).
  { split; [apply NoDup_singleton|].
    apply Forall_singleton. simpl. split; [discriminate|].
    split; [apply NoDup_singleton|]. apply Forall_singleton. exact I. }
  assert (Hrep : forall k', ndt_lookup ex_nd_base k' = nd_set NestedDict_new ex_nd_key 1 k').
  { intros k'. unfold nd_set.
    destruct (key_eqb_spec ex_nd_key k') as [<-|Hne]; [reflexivity|].
    unfold NestedDict_new. destruct k' as [f a].
    destruct (String.eqb_spec f "p") as [->|Hf].
    - destruct a as [|t [|t' a]]; [reflexivity| |reflexivity].
      destruct (term_eqb t (Cst "a")) eqn:Et.
      + apply term_eqb_eq in Et. subst t. by exfalso; apply Hne.
      + unfold ndt_lookup, ndt_getitem, ex_nd_base, pkey_eqb. simpl. rewrite Et. reflexivity.
    - unfold ndt_lookup, ndt_getitem, ex_nd_base, pkey_eqb. simpl.
      apply String.eqb_neq in Hf. by rewrite Hf. }
  split; [exact Hwf|]. split; [exact Hrep|].
  apply ndt_delitem_refines; [exact Hwf|exact Hrep].
Defined.

Lemma ndt_get_contains_witness :
  ndt_wf ex_nd_base /\
  ndt_get ex_nd_base ex_nd_key = Ok (NDLeaf <$> ndt_lookup ex_nd_base ex_nd_key) /\
  ndt_contains ex_nd_base ex_nd_key =
    Ok (bool_decide (is_Some (ndt_lookup ex_nd_base ex_nd_key))).
Proof.
  assert (Hwf : ndt_wf ex_nd_base).
  { split; [apply NoDup_singleton|].
    apply Forall_singleton. simpl. split; [discriminate|].
    split; [apply NoDup_singleton|]. apply Forall_singleton. exact I. }
  split; [exact Hwf|]. apply ndt_get_contains. exact Hwf.
Defined.

Lemma add_record_arena_witness :
  arena_ok ex_small_engine /\
  exists e', add_record ex_small_engine ex_record = Ok e' /\ arena_ok e' /\
    e_pointer e' = S (e_pointer ex_small_engine) /\
    e_stack e' !! e_pointer ex_small_engine = Some (Some ex_record) /\
    (forall i, i <> e_pointer ex_small_engine -> (i < length (e_stack ex_small_engine))%nat ->
       e_stack e' !! i = e_stack ex_small_engine !! i) /\
    e_cycle_root e' = e_cycle_root ex_small_engine.
Proof.
  assert (Ha : arena_ok ex_small_engine).
  { unfold arena_ok. apply (bool_decide_unpack _). vm_compute. reflexivity. }
  split; [exact Ha|]. apply add_record_arena. exact Ha.
Defined.

Lemma cleanUp_arena_witness :
  arena_ok ex_small_engine /\ (0 < e_stack_size ex_small_engine)%nat /\
  exists e', cleanUp ex_small_engine 0 = Ok e' /\ arena_ok e' /\
    e_stack e' = <[0%nat := None]> (e_stack ex_small_engine) /\
    (e_pointer e' <= e_pointer ex_small_engine)%nat /\
    (forall i, (e_pointer e' <= i < e_pointer ex_small_engine)%nat -> e_stack e' !! i = Some None) /\
    e_cycle_root e' = (if bool_decide (e_cycle_root ex_small_engine = Some 0%nat) then None
                       else e_cycle_root ex_small_engine).
Proof.
  assert (Ha : arena_ok ex_small_engine).
  { unfold arena_ok. apply (bool_decide_unpack _). vm_compute. reflexivity. }
  split; [exact Ha|]. split; [simpl; lia|].
  apply cleanUp_arena; [exact Ha|simpl; lia].
Defined.

Lemma add_record_cleanUp_restores_witness :
  arena_ok ex_small_engine /\
  exists e1 e2, add_record ex_small_engine ex_record = Ok e1 /\
    cleanUp e1 (e_pointer ex_small_engine) = Ok e2 /\
    e_pointer e2 = e_pointer ex_small_engine /\
    forall i, (i < length (e_stack ex_small_engine))%nat ->
      e_stack e2 !! i = e_stack ex_small_engine !! i.
Proof.
  assert (Ha : arena_ok ex_small_engine).
  { unfold arena_ok. apply (bool_decide_unpack _). vm_compute. reflexivity. }
  split; [exact Ha|]. apply add_record_cleanUp_restores. exact Ha.
Defined.

Lemma builtin_call_notify_protocol_witness :
  let b := ex_base 0 (Some 3%nat) None in
  let results := [(Some [Cst "a"], NODE_TRUE); (Some [Cst "b"], Some 4)] in
  (forall rn, rn ∈ results -> is_Some rn.1) /\
  exists acts, builtin_call_notify (fun c => c) b (App "q" [Var 0]) results = Ok (true, acts) /\
    ends_once acts /\ last acts = Some (AComplete (en_parent b) (en_identifier b)) /\
    Forall (fun a => dest a = Some (en_parent b)) acts.
Proof.
  intros b results.
  assert (Hr : forall rn, rn ∈ results -> is_Some rn.1).
  { intros rn Hrn. subst results.
    repeat (apply elem_of_cons in Hrn as [->|Hrn]; [simpl; by eexists|]).
    by apply elem_of_nil in Hrn. }
  split; [exact Hr|].
  apply (builtin_call_notify_protocol (fun c => c) b (App "q" [Var 0]) results Hr).
  right. exists "q"%string, [Var 0]. reflexivity.
Defined.

Lemma eval_define_cached_protocol_witness :
  let results := [([Cst "a"], One (Some 7)); ([Cst "b"], One NODE_FALSE)] in
  Forall (fun rv => exists n, rv.2 = One n) results /\
  exists acts, eval_define_cached (Some 3%nat) None None results = Ok acts /\
    ends_once acts /\ Forall (fun a => dest a = Some (Some 3%nat)) acts.
Proof.
  intros results.
  assert (H : Forall (fun rv => exists n, rv.2 = One n) results).
  { repeat constructor; simpl; eexists; reflexivity. }
  split; [exact H|]. apply eval_define_cached_protocol. exact H.
Defined.

Lemma rs_set_spec_witness :
  rs_consistent ex_open_results /\
  (rs_get ex_open_results [Cst "b"] = None ->
   exists rs', rs_set ex_open_results [Cst "b"] (Some 4) = Ok rs' /\ rs_consistent rs' /\
     rs_collapsed rs' = rs_collapsed ex_open_results /\
     rs_get rs' [Cst "b"] = Some (if rs_collapsed ex_open_results then One (Some 4) else Nodes [Some 4]) /\
     (forall r', r' <> [Cst "b"] -> rs_get rs' r' = rs_get ex_open_results r') /\
     ([Cst "b"] ∉ rs_keys ex_open_results) /\ rs_keys rs' = rs_keys ex_open_results ++ [[Cst "b"]]).
Proof.
  assert (H : rs_consistent ex_open_results) by (repeat constructor).
  split; [exact H|]. apply (rs_set_spec ex_open_results [Cst "b"] (Some 4) H).
Defined.

Lemma or_flushBuffer_spec_witness :
  rs_consistent ex_open_results /\
  exists t1 rs1, @or_flushBuffer ExTarget 100 ex_open_results false = Ok (t1, rs1) /\
    rs_collapsed rs1 = true /\ rs_consistent rs1 /\ rs_keys rs1 = rs_keys ex_open_results /\
    Forall (fun rv => exists n, rv.2 = One n) (rs_results rs1) /\
    (rs_collapsed ex_open_results = true -> t1 = 100 /\ rs1 = ex_open_results).
Proof.
  assert (H : rs_consistent ex_open_results) by (repeat constructor).
  split; [exact H|]. apply (or_flushBuffer_spec (T:=ExTarget) 100 ex_open_results false H).
Defined.

Lemma or_complete_protocol_witness :
  let b := ex_base 0 (Some 3%nat) None in
  rs_consistent ex_open_results /\
  exists t1 rs1 acts,
    @or_complete ExTarget 100 b ex_open_results 1 = Ok (t1, rs1, 1 - 1, bool_decide (1 = 1), acts) /\
    (1 <> 1 -> t1 = 100 /\ rs1 = ex_open_results /\ acts = []) /\
    (1 = 1 -> rs_collapsed rs1 = true /\ rs_keys rs1 = rs_keys ex_open_results /\
       ends_once acts /\ last acts = Some (AComplete (en_parent b) (en_identifier b)) /\
       Forall (fun a => dest a = Some (en_parent b)) acts /\
       (length acts <= S (length (rs_results ex_open_results)))%nat /\
       (en_on_cycle b = true -> acts = notifyComplete b None) /\
       (en_on_cycle b = false ->
          exists ns, length ns = length (rs_keys ex_open_results) /\
            acts = concat (zip_with (fun r n => notifyResult b r n false None)
                                    (rs_keys ex_open_results) ns) ++ notifyComplete b None)).
Proof.
  intros b.
  assert (H : rs_consistent ex_open_results) by (repeat constructor).
  split; [exact H|]. apply (or_complete_protocol (T:=ExTarget) 100 b ex_open_results 1 H).
Defined.

Lemma and_first_result_pending_witness :
  let b := ex_base 0 (Some 3%nat) None in
  [6; 8] !! 1%nat = Some 8 /\
  @and_newResult ExTarget ex_addAnd 100 b [6; 8] (and_pending true 2) [Cst "a"] (Some 4) None false =
  Ok (100, and_pending (negb false) 3, false,
      [ACall 8 {| kw_parent := Some (en_pointer b); kw_identifier := Some 4;
                  kw_context := [Cst "a"]; kw_transform := None;
                  kw_call_origin := None |}]).
Proof.
  intros b. split; [reflexivity|].
  apply (and_first_result_pending (T:=ExTarget) ex_addAnd 100 b [6; 8] 8 2).
  reflexivity.
Defined.

Lemma and_second_result_pending_witness :
  let b := ex_base 0 (Some 3%nat) None in
  Some 4 <> NODE_FALSE /\ (0 < 1)%nat /\
  @and_newResult ExTarget ex_addAnd 100 b [6; 8] (and_pending false 1) [Cst "a"] (Some 5) (Some 4) true =
  Ok ((ex_addAnd 100 (Some 4) (Some 5)).1, and_pending false 0,
      bool_decide (false = false /\ 0%nat = 0%nat),
      notifyResult b [Cst "a"] (ex_addAnd 100 (Some 4) (Some 5)).2
        (bool_decide (false = false /\ 0%nat = 0%nat)) None).
Proof.
  intros b. split; [discriminate|]. split; [lia|].
  apply (and_second_result_pending (T:=ExTarget) ex_addAnd 100 b [6; 8] false 1
           [Cst "a"] (Some 5) (Some 4) true); [discriminate|lia].
Defined.

Lemma and_complete_pending_witness :
  and_pending true 0 = and_pending false 0 + 1 /\
  and_complete (ex_base 0 (Some 3%nat) None) (and_pending true 0) =
  Ok (and_pending false 0, bool_decide (false = false /\ 0%nat = 0%nat),
      if bool_decide (false = false /\ 0%nat = 0%nat)
      then notifyComplete (ex_base 0 (Some 3%nat) None) None else []).
Proof.
  split; [reflexivity|]. apply and_complete_pending. reflexivity.
Defined.

Lemma define_complete_final_witness :
  exists e' d' cleanup acts,
    define_complete (ex_open_engine true) ex_open_base ex_open_fields = Ok (e', d', cleanup, acts) /\
    cleanup = true /\ d_to_complete d' = 0 /\ rs_collapsed (d_results d') = true /\
    getEvalNode (e_cache e') ("p"%string, [Var 0]) = None /\
    dc_get (e_cache e') ("p"%string, [Var 0]) = Some (rs_results (d_results d')) /\
    ends_once acts /\ Forall (fun a => dest a = Some (en_parent ex_open_base)) acts.
Proof.
  eexists _, _, _, _. split; [reflexivity|].
  apply (define_complete_final (ex_open_engine true) ex_open_base ex_open_fields);
    reflexivity.
Defined.

Lemma define_complete_replays_witness :
  exists e' d' cleanup acts,
    define_complete (ex_open_engine true) ex_open_base ex_open_fields = Ok (e', d', cleanup, acts) /\
    Forall (fun rv => rv.2 <> One NODE_FALSE) (rs_results (d_results d')) /\
    exists cached, dc_get (e_cache e') ("p"%string, [Var 0]) = Some cached /\
      eval_define_cached (en_parent ex_open_base) (en_identifier ex_open_base) None cached
      = Ok acts.
Proof.
  eexists _, _, _, _. split; [reflexivity|].
  assert (HF : Forall (fun rv => rv.2 <> One NODE_FALSE)
                 [([Cst "a"], One (Some 7))]).
  { repeat constructor. simpl. discriminate. }
  split; [exact HF|].
  eapply (define_complete_replays (ex_open_engine true) ex_open_base ex_open_fields);
    [reflexivity..|exact HF].
Defined.

Lemma define_complete_inactive_witness :
  define_flushBuffer (ex_open_engine false) "p" ex_open_results false
    = Ok (100, ex_collapsed_results) /\
  getEvalNode (e_cache (ex_open_engine false)) ("p"%string, [Var 0]) = None /\
  define_complete (ex_open_engine false) ex_open_base ex_open_fields = Err KeyError.
Proof.
  split; [reflexivity|]. split; [reflexivity|].
  apply (define_complete_inactive (ex_open_engine false) ex_open_base ex_open_fields
           100 ex_collapsed_results); reflexivity.
Defined.
